(** * EventBus: a shallow embedding of [event-bus.tsx] and its contract

    The dispatcher of [src/event-bus/src/lib/event-bus.tsx] keeps a
    [Map<EventKey, Set<Listener>>].  Both containers iterate in insertion
    order, and a [Set] of objects compares its members by identity.  A [Set]
    is an object of its own: [emit] holds on to the one it found under the
    key while callbacks run, and those callbacks may take it out of the map
    and put another one in its place.  So the model keeps the [Set] objects
    in a heap, by address, and the map takes a key to the address of its
    [Set]; a listener record carries the reference of the object literal it
    was built from.

    Callbacks belong to the caller.  A callback is a function reference; what
    calling it does is a [Script]: it may call every method of the dispatcher
    it is being called from (also [emit], also a handle), ask it questions,
    read and write the caller's own state, print to the console, and in the
    end it returns or throws.  [emit] walks the live [Set]: a record removed
    before the walk reaches it is not called, a record added during the walk
    is.  Callbacks that call [emit] may do so without end, so [emit] takes
    fuel, and a run that needs more has no result. *)

From Stdlib Require Import List String Bool Arith PeanoNat Lia.
Import ListNotations.

Set Implicit Arguments.

(** ** Event keys, callbacks, contexts *)

(** [type EventKey = string | symbol]: strings compare by value, symbols by
    identity. *)
Inductive EventKey : Type :=
| KString (s : string)
| KSymbol (id : nat).

Definition EventKey_eqb (a b : EventKey) : bool :=
  match a, b with
  | KString s, KString t => String.eqb s t
  | KSymbol i, KSymbol j => Nat.eqb i j
  | _, _ => false
  end.

(** A callback is a function reference, compared with [===]. *)
Definition Callback : Type := nat.

(** [context: unknown], compared with [===].  [Null] is the default of the
    parameter.  [NaN] is the one value that is not [===] to itself.  [Ref r]
    stands for every other value, an object by its reference and a primitive
    by its value: two of them are [===] exactly when they are the same. *)
Inductive Context : Type :=
| Null
| NaN
| Ref (r : nat).

(** [a === b]. *)
Definition Context_eqb (a b : Context) : bool :=
  match a, b with
  | Null, Null => true
  | Ref r, Ref s => Nat.eqb r s
  | _, _ => false
  end.

(** [interface Listener].  [ref] is the identity of the object literal
    [{ callback, context, once }]; it is what [Set.delete] compares. *)
Record Listener : Type := mkListener {
  ref : nat;
  callback : Callback;
  context : Context;
  once : bool
}.

(** A parameter with a default value: [context: unknown = null]. *)
Definition or_default {A : Type} (d : A) (o : option A) : A :=
  match o with
  | Some a => a
  | None => d
  end.

(** ** The two containers *)

(** [Map<EventKey, V>] in insertion order. *)
Module JSMap.
Section WithValue.
Variable V : Type.

Definition t : Type := list (EventKey * V).

Definition empty : t := [].

Fixpoint get (k : EventKey) (m : t) : option V :=
  match m with
  | [] => None
  | (k', v) :: m' => if EventKey_eqb k k' then Some v else get k m'
  end.

Definition has (k : EventKey) (m : t) : bool :=
  match get k m with
  | Some _ => true
  | None => false
  end.

(** [set] keeps the position of a key that is already present. *)
Fixpoint set (k : EventKey) (v : V) (m : t) : t :=
  match m with
  | [] => [(k, v)]
  | (k', v') :: m' =>
      if EventKey_eqb k k' then (k, v) :: m' else (k', v') :: set k v m'
  end.

Definition delete (k : EventKey) (m : t) : t :=
  filter (fun kv => negb (EventKey_eqb k (fst kv))) m.

Definition keys (m : t) : list EventKey := map fst m.
End WithValue.
End JSMap.

(** [Set<Listener>] in insertion order; membership is object identity. *)
Module JSSet.
Definition t : Type := list Listener.

(** [new Set()]. *)
Definition empty : t := [].

Definition same (a b : Listener) : bool := Nat.eqb (ref a) (ref b).

Definition has (l : Listener) (s : t) : bool := existsb (same l) s.

Definition add (l : Listener) (s : t) : t :=
  if has l s then s else s ++ [l].

Definition delete (l : Listener) (s : t) : t :=
  filter (fun x => negb (same l x)) s.

Definition size (s : t) : nat := List.length s.

(** [s.forEach(l => { if (p(l)) s.delete(l); })].  The body only ever
    deletes the member being visited, so every member of the set as it was
    when the loop started is visited. *)
Definition delete_where (p : Listener -> bool) (s : t) : t :=
  fold_left (fun acc l => if p l then delete l acc else acc) s s.

(** [toRemove.forEach(l => s.delete(l))]. *)
Definition delete_all (toRemove : list Listener) (s : t) : t :=
  fold_left (fun acc l => delete l acc) toRemove s.
End JSSet.

(** The [Set] objects made so far, each at the address it was given when it
    was made. *)
Module Heap.
Definition t : Type := list JSSet.t.

(** The members of the [Set] at an address. *)
Definition read (a : nat) (h : t) : JSSet.t := nth a h JSSet.empty.

(** The [Set] at an address changed in place. *)
Fixpoint write (a : nat) (s : JSSet.t) (h : t) : t :=
  match h, a with
  | [], _ => []
  | _ :: rest, 0 => s :: rest
  | x :: rest, S a' => x :: write a' s rest
  end.

(** [new Set()]: the address of the new object, and the heap with it. *)
Definition alloc (h : t) : nat * t := (List.length h, h ++ [JSSet.empty]).
End Heap.

(** ** The dispatcher *)

(** [class EventBus].  The private field [listeners] is [index] and [heap]
    together: the address of the [Set] under each key, and the [Set]s.
    [next_ref] is the next free object reference, from which [on] and [once]
    take the identity of the record they build. *)
Record EventBus : Type := mkEventBus {
  index : JSMap.t nat;
  heap : Heap.t;
  next_ref : nat
}.

(** [new EventBus()]. *)
Definition new_EventBus : EventBus :=
  {| index := JSMap.empty nat; heap := []; next_ref := 0 |}.

(** [this.listeners] as a reader sees it: each key with the members its
    [Set] has now. *)
Definition listeners (bus : EventBus) : JSMap.t JSSet.t :=
  map (fun kv => (fst kv, Heap.read (snd kv) (heap bus))) (index bus).

Definition with_index (m : JSMap.t nat) (bus : EventBus) : EventBus :=
  {| index := m; heap := heap bus; next_ref := next_ref bus |}.

(** The [Set] at an address changed in place. *)
Definition with_set (a : nat) (s : JSSet.t) (bus : EventBus) : EventBus :=
  {| index := index bus; heap := Heap.write a s (heap bus);
     next_ref := next_ref bus |}.

(** [type UnsubscribeFn = () => void]: what calling it does to the bus. *)
Definition UnsubscribeFn : Type := EventBus -> EventBus.

(** [if (eventListeners.size === 0) this.listeners.delete(event);] where
    [eventListeners] is the [Set] object the method holds.  The key that is
    deleted is [event], whichever [Set] is under it by now. *)
Definition cleanup (event : EventKey) (eventListeners : nat) (bus : EventBus)
    : EventBus :=
  if Nat.eqb (JSSet.size (Heap.read eventListeners (heap bus))) 0
  then with_index (JSMap.delete event (index bus)) bus
  else bus.

(** The test of the handles: [l.callback === callback && l.context === context]. *)
Definition matches (cb : Callback) (ctx : Context) (l : Listener) : bool :=
  Nat.eqb (callback l) cb && Context_eqb (context l) ctx.

(** The test of [off]:
    [listener.callback === callback && (context === null || listener.context === context)]. *)
Definition off_matches (cb : Callback) (ctx : Context) (l : Listener) : bool :=
  Nat.eqb (callback l) cb
  && (Context_eqb ctx Null || Context_eqb (context l) ctx).

(** [eventListeners.forEach(l => { if (p(l)) eventListeners.delete(l); })]
    followed by the clean-up, for the [Set] object at [eventListeners]. *)
Definition thin (p : Listener -> bool) (event : EventKey) (eventListeners : nat)
    (bus : EventBus) : EventBus :=
  cleanup event eventListeners
    (with_set eventListeners
       (JSSet.delete_where p (Heap.read eventListeners (heap bus))) bus).

(** The closure returned by [on] and by [once] (the same body in both), with
    the variables it captures. *)
Definition unsubscribe (event : EventKey) (cb : Callback) (ctx : Context)
    : UnsubscribeFn :=
  fun bus =>
    match JSMap.get event (index bus) with
    | Some eventListeners => thin (matches cb ctx) event eventListeners bus
    | None => bus
    end.

(** The part [on] and [once] share: create the set if the key is new, build
    the record and add it to the set that is under the key. *)
Definition register (event : EventKey) (cb : Callback) (ctx : Context)
    (is_once : bool) (bus : EventBus) : EventBus :=
  let bus1 :=
    if negb (JSMap.has event (index bus))
    then
      let (a, h) := Heap.alloc (heap bus) in
      {| index := JSMap.set event a (index bus); heap := h;
         next_ref := next_ref bus |}
    else bus in
  let listener :=
    {| ref := next_ref bus; callback := cb; context := ctx; once := is_once |} in
  let bus2 :=
    match JSMap.get event (index bus1) with
    | Some a => with_set a (JSSet.add listener (Heap.read a (heap bus1))) bus1
    | None => bus1
    end in
  {| index := index bus2; heap := heap bus2; next_ref := S (next_ref bus) |}.

Definition on (event : EventKey) (cb : Callback) (ctx : option Context)
    (bus : EventBus) : UnsubscribeFn * EventBus :=
  let ctx := or_default Null ctx in
  (unsubscribe event cb ctx, register event cb ctx false bus).

(** The method [once]; it takes the spec's name [subscribeOnce] here because
    [once] already names the field of the record. *)
Definition subscribeOnce (event : EventKey) (cb : Callback)
    (ctx : option Context) (bus : EventBus) : UnsubscribeFn * EventBus :=
  let ctx := or_default Null ctx in
  (unsubscribe event cb ctx, register event cb ctx true bus).

(** [off(event, callback?, context = null)]. *)
Definition off (event : EventKey) (cb : option Callback)
    (ctx : option Context) (bus : EventBus) : EventBus :=
  let ctx := or_default Null ctx in
  match JSMap.get event (index bus) with
  | None => bus
  | Some eventListeners =>
      match cb with
      | None => with_index (JSMap.delete event (index bus)) bus
      | Some cb => thin (off_matches cb ctx) event eventListeners bus
      end
  end.

(** [clear(event?)]. *)
Definition clear (event : option EventKey) (bus : EventBus) : EventBus :=
  match event with
  | Some event => with_index (JSMap.delete event (index bus)) bus
  | None => with_index (JSMap.empty nat) bus
  end.

Definition listenerCount (event : EventKey) (bus : EventBus) : nat :=
  match JSMap.get event (listeners bus) with
  | Some eventListeners => JSSet.size eventListeners
  | None => 0
  end.

Definition hasListeners (event : EventKey) (bus : EventBus) : bool :=
  Nat.ltb 0 (listenerCount event bus).

Definition eventNames (bus : EventBus) : list EventKey :=
  JSMap.keys (listeners bus).

(** The records registered under a key, in insertion order. *)
Definition listeners_of (event : EventKey) (bus : EventBus) : JSSet.t :=
  or_default JSSet.empty (JSMap.get event (listeners bus)).

(** ** Running callbacks *)

Section Delivery.

(** What a payload is, what can be thrown, and the state the callbacks keep
    for themselves are the caller's business. *)
Variables Payload Error Env : Type.

(** How a statement ends. *)
Inductive Completion (A : Type) : Type :=
| Normal (a : A)
| Throw (e : Error).

Arguments Throw {A} e.

(** What the body of a callback does, step by step: it calls a method of
    the dispatcher or one of its handles, asks the dispatcher something and
    goes on with the answer, reads or writes its own state, prints, and in
    the end returns or throws. *)
Inductive Script : Type :=
| Return
| Raise (e : Error)
| CallOn (event : EventKey) (cb : Callback) (ctx : option Context)
    (next : Script)
| CallOnce (event : EventKey) (cb : Callback) (ctx : option Context)
    (next : Script)
| CallHandle (event : EventKey) (cb : Callback) (ctx : Context)
    (next : Script)
| CallOff (event : EventKey) (cb : option Callback) (ctx : option Context)
    (next : Script)
| CallClear (event : option EventKey) (next : Script)
| CallEmit (event : EventKey) (payload : Payload) (next : Script)
| AskCount (event : EventKey) (next : nat -> Script)
| AskNames (next : list EventKey -> Script)
| GetState (next : Env -> Script)
| SetState (e : Env) (next : Script)
| ConsoleError (event : EventKey) (error : Error) (next : Script).

(** The body of [callback], for the receiver and the argument of
    [callback.call(context, payload)]. *)
Variable callback_call : Callback -> Context -> Payload -> Script.

(** One [listener.callback.call(listener.context, payload)] as it
    happened. *)
Record Call : Type := mkCall {
  target : Listener;
  this_arg : Context;
  argument : Payload;
  outcome : Completion unit
}.

(** The callbacks' state, what [console.error] has printed, and the calls
    that have come back so far. *)
Record Host : Type := mkHost {
  env : Env;
  console : list (EventKey * Error);
  calls : list Call
}.

(** The dispatcher and what is around it. *)
Definition World : Type := (EventBus * Host)%type.

(** A statement: it may change the world and throw, and what it did before
    it threw stays done.  It has no result when the fuel does not last. *)
Definition Exec (A : Type) : Type := World -> option (Completion A * World).

Definition ret {A : Type} (a : A) : Exec A := fun w => Some (Normal a, w).

Definition bind {A B : Type} (c : Exec A) (k : A -> Exec B) : Exec B :=
  fun w =>
    match c w with
    | Some (Normal a, w') => k a w'
    | Some (Throw e, w') => Some (Throw e, w')
    | None => None
    end.

(** [try { body } catch (error) { handler }]. *)
Definition try_catch {A : Type} (body : Exec A) (handler : Error -> Exec A)
    : Exec A :=
  fun w =>
    match body w with
    | Some (Normal a, w') => Some (Normal a, w')
    | Some (Throw e, w') => handler e w'
    | None => None
    end.

Notation "x <- c ;; k" := (bind c (fun x => k))
  (at level 61, c at next level, right associativity).
Notation "c ;;; k" := (bind c (fun _ => k))
  (at level 61, right associativity).

(** A method of the dispatcher that returns nothing the caller uses. *)
Definition on_bus (f : EventBus -> EventBus) : Exec unit :=
  fun w => Some (Normal tt, (f (fst w), snd w)).

Definition on_host (f : Host -> Host) : Exec unit :=
  fun w => Some (Normal tt, (fst w, f (snd w))).

(** [console.error(`Error in event listener for ${String(event)}:`, error)]. *)
Definition console_error (event : EventKey) (error : Error) : Exec unit :=
  on_host (fun h =>
    {| env := env h;
       console := console h ++ [(event, error)];
       calls := calls h |}).

(** The body of a callback run against the dispatcher; [emit_rec] is what a
    call of [emit] from inside it does. *)
Fixpoint exec (emit_rec : EventKey -> Payload -> Exec unit) (s : Script)
    : Exec unit :=
  match s with
  | Return => ret tt
  | Raise e => fun w => Some (Throw e, w)
  | CallOn event cb ctx next =>
      on_bus (fun bus => snd (on event cb ctx bus)) ;;; exec emit_rec next
  | CallOnce event cb ctx next =>
      on_bus (fun bus => snd (subscribeOnce event cb ctx bus)) ;;;
      exec emit_rec next
  | CallHandle event cb ctx next =>
      on_bus (unsubscribe event cb ctx) ;;; exec emit_rec next
  | CallOff event cb ctx next =>
      on_bus (off event cb ctx) ;;; exec emit_rec next
  | CallClear event next =>
      on_bus (clear event) ;;; exec emit_rec next
  | CallEmit event payload next =>
      emit_rec event payload ;;; exec emit_rec next
  | AskCount event next =>
      fun w => exec emit_rec (next (listenerCount event (fst w))) w
  | AskNames next =>
      fun w => exec emit_rec (next (eventNames (fst w))) w
  | GetState next =>
      fun w => exec emit_rec (next (env (snd w))) w
  | SetState e next =>
      on_host (fun h => {| env := e; console := console h; calls := calls h |}) ;;;
      exec emit_rec next
  | ConsoleError event error next =>
      console_error event error ;;; exec emit_rec next
  end.

(** [listener.callback.call(listener.context, payload)], with the call
    written down when it comes back. *)
Definition call_listener (run : Script -> Exec unit) (listener : Listener)
    (payload : Payload) : Exec unit :=
  fun w =>
    match run (callback_call (callback listener) (context listener) payload) w with
    | Some (r, (bus, h)) =>
        Some (r,
              (bus,
               {| env := env h;
                  console := console h;
                  calls :=
                    calls h ++ [mkCall listener (context listener) payload r] |}))
    | None => None
    end.

(** [set.forEach(body)] for the [Set] object at [eventListeners], as
    [Set.prototype.forEach] walks it: the next member is the first one, in
    insertion order, that the [Set] holds now and the walk has not visited.
    So a member deleted before its turn is passed over and a member added
    during the walk gets its turn.  ([seen] is the members visited; a record
    is added to a [Set] once, when it is built, so none comes back after the
    walk has passed it.)  [body] updates a local variable, and a throw in it
    ends the loop.  Each visit takes one unit of fuel. *)
Fixpoint forEach {S : Type} (fuel : nat) (eventListeners : nat)
    (body : S -> Listener -> Exec S) (seen : list Listener) (acc : S)
    : Exec S :=
  fun w =>
    match
      find (fun l => negb (JSSet.has l seen))
        (Heap.read eventListeners (heap (fst w)))
    with
    | None => Some (Normal acc, w)
    | Some l =>
        match fuel with
        | 0 => None
        | S fuel' =>
            (acc' <- body acc l ;;
             forEach fuel' eventListeners body (seen ++ [l]) acc') w
        end
    end.

(** The body of the delivery loop of [emit]; [toRemove] is the array the
    loop pushes to. *)
Definition deliver_one (run : Script -> Exec unit) (event : EventKey)
    (payload : Payload) (toRemove : list Listener) (listener : Listener)
    : Exec (list Listener) :=
  try_catch
    (call_listener run listener payload ;;;
     ret (if once listener then toRemove ++ [listener] else toRemove))
    (fun error => console_error event error ;;; ret toRemove).

(** [emit(event, payload)].  A call of [emit] from a callback is [emit]
    again, with the fuel that is left. *)
Fixpoint emit (fuel : nat) (event : EventKey) (payload : Payload)
    : Exec unit :=
  fun w =>
    match JSMap.get event (index (fst w)) with
    | None => Some (Normal tt, w)
    | Some eventListeners =>
        match fuel with
        | 0 => None
        | S fuel' =>
            (toRemove <-
               forEach fuel' eventListeners
                 (deliver_one (exec (emit fuel')) event payload) [] [] ;;
             on_bus (fun bus =>
               cleanup event eventListeners
                 (with_set eventListeners
                    (JSSet.delete_all toRemove
                       (Heap.read eventListeners (heap bus)))
                    bus))) w
        end
    end.

(** The calls and the console lines a statement added to the host. *)
Definition new_calls (before after : Host) : list Call :=
  skipn (List.length (calls before)) (calls after).

Definition new_console (before after : Host) : list (EventKey * Error) :=
  skipn (List.length (console before)) (console after).

End Delivery.

Arguments Normal {Error A} a.
Arguments Throw {Error A} e.
Arguments Return {Payload Error Env}.
Arguments Raise {Payload Error Env} e.
Arguments mkCall {Payload Error} target this_arg argument outcome.
Arguments mkHost {Payload Error Env} env console calls.

(** ** Callbacks that leave the dispatcher alone *)

Section DeliveryTrace.

Variables Payload Error Env : Type.
Variable callback_call : Callback -> Context -> Payload -> Script Payload Error Env.

(** A body that calls no method of the dispatcher that can change the
    registry: no [on], [once], [off], [clear], [emit], and no handle.  It
    may still ask, keep state, print and throw. *)
Fixpoint passive (s : Script Payload Error Env) : Prop :=
  match s with
  | Return => True
  | Raise _ => True
  | AskCount _ next => forall n, passive (next n)
  | AskNames next => forall names, passive (next names)
  | GetState next => forall e, passive (next e)
  | SetState _ next => passive next
  | ConsoleError _ _ next => passive next
  | _ => False
  end.

(** A body that does not print. *)
Fixpoint mute (s : Script Payload Error Env) : Prop :=
  match s with
  | Return => True
  | Raise _ => True
  | CallOn _ _ _ next => mute next
  | CallOnce _ _ _ next => mute next
  | CallHandle _ _ _ next => mute next
  | CallOff _ _ _ next => mute next
  | CallClear _ next => mute next
  | CallEmit _ _ next => mute next
  | AskCount _ next => forall n, mute (next n)
  | AskNames next => forall names, mute (next names)
  | GetState next => forall e, mute (next e)
  | SetState _ next => mute next
  | ConsoleError _ _ _ => False
  end.

(** An [emit] that never comes back: what a passive body never needs. *)
Definition no_emit : EventKey -> Payload -> Exec Payload Error Env unit :=
  fun _ _ _ => None.

(** How the call of the callback of [l] ends and what it leaves of the host,
    when its body is passive. *)
Definition answer (bus : EventBus) (l : Listener) (payload : Payload)
    (h : Host Payload Error Env) : Completion Error unit * Host Payload Error Env :=
  match exec no_emit (callback_call (callback l) (context l) payload) (bus, h) with
  | Some (r, (_, h')) => (r, h')
  | None => (Normal tt, h)
  end.

(** The host after one turn of the delivery loop: the call is written down
    and, if it threw, the line is printed. *)
Definition after_call (event : EventKey) (l : Listener) (payload : Payload)
    (r : Completion Error unit) (h : Host Payload Error Env)
    : Host Payload Error Env :=
  {| env := env h;
     console :=
       console h
       ++ match r with
          | Normal _ => []
          | Throw e => [(event, e)]
          end;
     calls := calls h ++ [mkCall l (context l) payload r] |}.

(** The calls a pass over [ls] makes when the bodies are passive, one per
    listener and in order, each starting in the host the previous one left;
    and the host at the end. *)
Fixpoint run_calls (event : EventKey) (bus : EventBus) (ls : list Listener)
    (payload : Payload) (h : Host Payload Error Env)
    : list (Call Payload Error) * Host Payload Error Env :=
  match ls with
  | [] => ([], h)
  | l :: ls' =>
      let (r, h1) := answer bus l payload h in
      let (cs, h2) := run_calls event bus ls' payload (after_call event l payload r h1) in
      (mkCall l (context l) payload r :: cs, h2)
  end.

Definition returned (c : Call Payload Error) : bool :=
  match outcome c with
  | Normal _ => true
  | Throw _ => false
  end.

(** The listeners a pass hands over for removal. *)
Definition consumed (cs : list (Call Payload Error)) : list Listener :=
  map (@target _ _) (filter (fun c => once (target c) && returned c) cs).

(** The lines [emit] prints for a list of calls. *)
Definition reported (event : EventKey) (cs : list (Call Payload Error))
    : list (EventKey * Error) :=
  flat_map
    (fun c =>
       match outcome c with
       | Normal _ => []
       | Throw e => [(event, e)]
       end)
    cs.

(** Where [emit] ends when the callbacks under the key are passive: one
    pass over the records the key has, then the one-shot records whose call
    returned are deleted and the key is cleaned up. *)
Definition pass_result (event : EventKey) (payload : Payload) (bus : EventBus)
    (h : Host Payload Error Env) : World Payload Error Env :=
  let (cs, h') := run_calls event bus (listeners_of event bus) payload h in
  (match JSMap.get event (index bus) with
   | Some a =>
       cleanup event a
         (with_set a (JSSet.delete_all (consumed cs) (Heap.read a (heap bus))) bus)
   | None => bus
   end,
   h').

(** ** Reachable states *)

(** The states a dispatcher goes through, starting from [new EventBus()]
    and calling its methods and the handles they returned, with any
    arguments, any callbacks behind the listeners and against any host.  An
    [emit] counts when it comes back. *)
Inductive reachable : EventBus -> Prop :=
| reach_new : reachable new_EventBus
| reach_on : forall bus event cb ctx,
    reachable bus -> reachable (snd (on event cb ctx bus))
| reach_once : forall bus event cb ctx,
    reachable bus -> reachable (snd (subscribeOnce event cb ctx bus))
| reach_handle_on : forall bus bus0 event cb ctx,
    reachable bus -> reachable (fst (on event cb ctx bus0) bus)
| reach_handle_once : forall bus bus0 event cb ctx,
    reachable bus -> reachable (fst (subscribeOnce event cb ctx bus0) bus)
| reach_off : forall bus event cb ctx,
    reachable bus -> reachable (off event cb ctx bus)
| reach_clear : forall bus event,
    reachable bus -> reachable (clear event bus)
| reach_emit : forall bus event payload fuel h r bus' h',
    reachable bus ->
    emit callback_call fuel event payload (bus, h) = Some (r, (bus', h')) ->
    reachable bus'.

End DeliveryTrace.

(** The shape every reachable registry has.  No [Set] object is under two
    keys and every address in the map is one of the heap; each key is there
    once; no key has an empty set; and the records of a set are distinct and
    were built before now. *)
Definition set_ok (next : nat) (s : JSSet.t) : Prop :=
  s <> [] /\ NoDup (map ref s) /\ Forall (fun l => ref l < next) s.

Definition index_ok (bus : EventBus) : Prop :=
  NoDup (map snd (index bus))
  /\ Forall (fun kv => snd kv < List.length (heap bus)) (index bus).

Definition well_formed (bus : EventBus) : Prop :=
  index_ok bus
  /\ NoDup (JSMap.keys (listeners bus))
  /\ Forall (fun kv => set_ok (next_ref bus) (snd kv)) (listeners bus).

(** What a method can do to the map and the heap: the heap does not shrink,
    and an entry of the map was there before or has an address that is
    new. *)
Definition grows (bus bus' : EventBus) : Prop :=
  List.length (heap bus) <= List.length (heap bus')
  /\ forall kv, In kv (index bus') ->
       In kv (index bus) \/ List.length (heap bus) <= snd kv.

(** A method that keeps registries well formed and only lets them grow. *)
Definition sound (bus bus' : EventBus) : Prop :=
  grows bus bus' /\ (well_formed bus -> well_formed bus').

(** A statement all of whose runs are sound. *)
Definition sound_exec {Payload Error Env A : Type}
    (c : Exec Payload Error Env A) : Prop :=
  forall w r w', c w = Some (r, w') -> sound (fst w) (fst w').



(** ** A concrete host *)

Definition test_key : EventKey := KString "test".

Definition other_key : EventKey := KSymbol 0.

(** Callback [0] throws what it is given.  Callbacks [10] to [14] call the
    dispatcher back: [10] takes the listeners of callback [1] off the key
    and throws, [11] calls the handle of a subscription of callback [1],
    [12] takes callback [1] with context [2] off the key, [13] calls its
    own handle, [14] emits what it is given under the other key.  Every
    other callback returns.  Those that do not call the dispatcher count
    their calls in the state. *)
Definition sample_call (cb : Callback) (_ : Context) (payload : string)
    : Script string string nat :=
  match cb with
  | 10 => CallOff test_key (Some 1) None (Raise payload)
  | 11 => CallHandle test_key 1 Null Return
  | 12 => CallOff test_key (Some 1) (Some (Ref 2)) Return
  | 13 => CallHandle test_key 13 Null Return
  | 14 => CallEmit other_key payload Return
  | _ =>
      GetState (fun n =>
        SetState (S n) (if Nat.eqb cb 0 then Raise payload else Return))
  end.

Definition sample_host : Host string string nat := mkHost 0 [] [].

(** [emit] with fuel enough for the buses below; the world it leaves. *)
Definition sample_emit (event : EventKey) (payload : string)
    (w : EventBus * Host string string nat) : EventBus * Host string string nat :=
  match emit sample_call 16 event payload w with
  | Some (_, w') => w'
  | None => w
  end.

(** [on("test", f0); on("test", f1)] on a new bus; [f0] is the callback that
    throws. *)
Definition two_listeners : EventBus :=
  snd (on test_key 1 None (snd (on test_key 0 None new_EventBus))).

(** [on("test", f1, c1); on("test", f1, c2)] on a new bus. *)
Definition two_contexts : EventBus :=
  snd (on test_key 1 (Some (Ref 2))
         (snd (on test_key 1 (Some (Ref 1)) new_EventBus))).

(** [once("test", f1); on("test", f2); on(sym, f0); once("test", f0)] on a
    new bus: two one-shot records, one of them with the callback that
    throws, a persistent one, and a second key. *)
Definition mixed_listeners : EventBus :=
  snd (subscribeOnce test_key 0 None
         (snd (on other_key 0 None
                 (snd (on test_key 2 None
                         (snd (subscribeOnce test_key 1 None new_EventBus))))))).

(** * Properties *)

(** ** Equality tests *)

Lemma EventKey_eqb_spec (a b : EventKey) : reflect (a = b) (EventKey_eqb a b).
Proof.
  destruct a as [s|i], b as [t|j]; simpl; try (constructor; discriminate).
  - destruct (String.eqb_spec s t); constructor; congruence.
  - destruct (Nat.eqb_spec i j); constructor; congruence.
Qed.

Lemma EventKey_eqb_refl (a : EventKey) : EventKey_eqb a a = true.
Proof. destruct (EventKey_eqb_spec a a); congruence. Qed.

(** [===] holds between equal values only, and a value other than [NaN] is
    [===] to itself. *)
Lemma Context_eqb_eq (a b : Context) : Context_eqb a b = true -> a = b.
Proof.
  destruct a as [| |r], b as [| |s]; simpl; try discriminate; trivial.
  intros H. apply Nat.eqb_eq in H. now subst.
Qed.

Lemma Context_eqb_refl (a : Context) : a <> NaN -> Context_eqb a a = true.
Proof.
  destruct a as [| |r]; simpl; trivial; [congruence|intros _; apply Nat.eqb_refl].
Qed.

Ltac key_cases k k' :=
  destruct (EventKey_eqb_spec k k'); subst; simpl; try congruence.

(** ** The map *)

Section MapFacts.
Variable V : Type.
Implicit Types (m : JSMap.t V) (k : EventKey) (v : V).

Lemma get_set_same k v m : JSMap.get k (JSMap.set k v m) = Some v.
Proof.
  induction m as [|[k' v'] m IH]; simpl.
  - now rewrite EventKey_eqb_refl.
  - key_cases k k'.
    + now rewrite EventKey_eqb_refl.
    + destruct (EventKey_eqb_spec k k'); congruence.
Qed.

Lemma get_set_other k k' v m :
  k <> k' -> JSMap.get k' (JSMap.set k v m) = JSMap.get k' m.
Proof.
  intros Hne. induction m as [|[k0 v0] m IH]; simpl.
  - key_cases k' k.
  - key_cases k k0.
    + key_cases k' k0.
    + now rewrite IH.
Qed.

Lemma get_delete_same k m : JSMap.get k (JSMap.delete k m) = None.
Proof.
  induction m as [|[k' v'] m IH]; simpl; trivial.
  key_cases k k'. destruct (EventKey_eqb_spec k k'); congruence.
Qed.

Lemma get_delete_other k k' m :
  k <> k' -> JSMap.get k' (JSMap.delete k m) = JSMap.get k' m.
Proof.
  intros Hne. induction m as [|[k0 v0] m IH]; simpl; trivial.
  key_cases k k0.
  - key_cases k' k0.
  - now rewrite IH.
Qed.

Lemma set_get_id k v m : JSMap.get k m = Some v -> JSMap.set k v m = m.
Proof.
  induction m as [|[k' v'] m IH]; simpl; [discriminate|].
  key_cases k k'. intros H. now rewrite IH.
Qed.

Lemma set_set k v v' m :
  JSMap.set k v (JSMap.set k v' m) = JSMap.set k v m.
Proof.
  induction m as [|[k0 v0] m IH]; simpl.
  - now rewrite EventKey_eqb_refl.
  - key_cases k k0.
    + now rewrite EventKey_eqb_refl.
    + destruct (EventKey_eqb_spec k k0); congruence.
Qed.

Lemma get_In k v m : JSMap.get k m = Some v -> In (k, v) m.
Proof.
  induction m as [|[k' v'] m IH]; simpl; [discriminate|].
  key_cases k k'; [intros [= ->]|]; auto.
Qed.

Lemma In_get k v m :
  NoDup (JSMap.keys m) -> In (k, v) m -> JSMap.get k m = Some v.
Proof.
  induction m as [|[k' v'] m IH]; simpl; [tauto|].
  intros Hnd [Heq|Hin]; inversion Hnd; subst.
  - injection Heq as -> ->. now rewrite EventKey_eqb_refl.
  - key_cases k k'; auto.
    exfalso. apply H1. change k' with (fst (k', v)). now apply in_map.
Qed.

Lemma keys_get k m :
  In k (JSMap.keys m) <-> exists v, JSMap.get k m = Some v.
Proof.
  induction m as [|[k' v'] m IH]; simpl.
  - split; [tauto|intros [v H]; discriminate].
  - key_cases k k'.
    + split; eauto.
    + rewrite <- IH. split; auto. intros [H|H]; congruence.
Qed.

Lemma In_set k v m x :
  In x (JSMap.set k v m) -> x = (k, v) \/ In x m.
Proof.
  induction m as [|[k' v'] m IH]; simpl.
  - intros [H|[]]; auto.
  - key_cases k k'; simpl; intuition.
Qed.

Lemma keys_set_in k v m :
  forall k', In k' (JSMap.keys (JSMap.set k v m)) -> k' = k \/ In k' (JSMap.keys m).
Proof.
  intros k' H. unfold JSMap.keys in *. apply in_map_iff in H.
  destruct H as [[k0 v0] [<- H]]. apply In_set in H. destruct H as [H|H].
  - injection H as -> ->. now left.
  - right. change k0 with (fst (k0, v0)). now apply in_map.
Qed.

Lemma NoDup_keys_set k v m :
  NoDup (JSMap.keys m) -> NoDup (JSMap.keys (JSMap.set k v m)).
Proof.
  induction m as [|[k' v'] m IH]; simpl; intros Hnd.
  - constructor; [simpl; tauto|constructor].
  - inversion Hnd; subst. key_cases k k'.
    constructor; auto. intros Hin. apply keys_set_in in Hin.
    destruct Hin; congruence.
Qed.

Lemma NoDup_keys_delete k m :
  NoDup (JSMap.keys m) -> NoDup (JSMap.keys (JSMap.delete k m)).
Proof.
  induction m as [|[k' v'] m IH]; simpl; intros Hnd; trivial.
  inversion Hnd; subst. key_cases k k'; auto.
  constructor; auto. intros Hin. apply H1.
  unfold JSMap.keys, JSMap.delete in *. apply in_map_iff in Hin.
  destruct Hin as [x [Hx Hin]]. apply filter_In in Hin.
  apply in_map_iff. exists x. tauto.
Qed.

Lemma Forall_set (P : EventKey * V -> Prop) k v m :
  P (k, v) -> Forall P m -> Forall P (JSMap.set k v m).
Proof.
  intros Hp Hall. apply Forall_forall. intros x Hx.
  apply In_set in Hx. destruct Hx as [->|Hx]; trivial.
  rewrite Forall_forall in Hall. auto.
Qed.

Lemma Forall_delete (P : EventKey * V -> Prop) k m :
  Forall P m -> Forall P (JSMap.delete k m).
Proof.
  intros Hall. apply Forall_forall. intros x Hx.
  apply filter_In in Hx. rewrite Forall_forall in Hall. apply Hall, Hx.
Qed.
End MapFacts.

(** ** The set *)

Lemma same_refl (l : Listener) : JSSet.same l l = true.
Proof. apply Nat.eqb_refl. Qed.

Lemma filter_all {A : Type} (p : A -> bool) (xs : list A) :
  (forall x, In x xs -> p x = true) -> filter p xs = xs.
Proof.
  induction xs as [|x xs IH]; simpl; intros H; trivial.
  rewrite (H x) by auto. f_equal. apply IH. auto.
Qed.

Lemma filter_filter {A : Type} (p q : A -> bool) (xs : list A) :
  filter q (filter p xs) = filter (fun x => p x && q x) xs.
Proof.
  induction xs as [|x xs IH]; simpl; trivial.
  destruct (p x); simpl; [destruct (q x)|]; now rewrite IH.
Qed.

Lemma NoDup_map_eq {A B : Type} (f : A -> B) (xs : list A) (a b : A) :
  NoDup (map f xs) -> In a xs -> In b xs -> f a = f b -> a = b.
Proof.
  induction xs as [|x xs IH]; simpl; [tauto|].
  intros Hnd Ha Hb Hf. inversion Hnd as [|y ys Hnot Hnd']; subst.
  destruct Ha as [->|Ha], Hb as [->|Hb]; auto; exfalso; apply Hnot.
  - rewrite Hf. now apply in_map.
  - rewrite <- Hf. now apply in_map.
Qed.

Lemma NoDup_map_filter {A B : Type} (f : A -> B) (p : A -> bool) (xs : list A) :
  NoDup (map f xs) -> NoDup (map f (filter p xs)).
Proof.
  induction xs as [|x xs IH]; simpl; intros Hnd; trivial.
  inversion Hnd as [|y ys Hnot Hnd']; subst.
  destruct (p x); simpl; auto. constructor; auto.
  intros Hin. apply Hnot. apply in_map_iff in Hin.
  destruct Hin as [z [Hz Hin]]. apply filter_In in Hin.
  apply in_map_iff. exists z. tauto.
Qed.

(** Deleting while iterating removes the records that are, by identity, one
    of the visited records that pass the test. *)
Lemma fold_delete_where (p : Listener -> bool) (xs : list Listener) (acc : JSSet.t) :
  fold_left (fun acc l => if p l then JSSet.delete l acc else acc) xs acc
  = filter (fun x => negb (existsb (fun l => p l && JSSet.same l x) xs)) acc.
Proof.
  revert acc. induction xs as [|l xs IH]; intros acc; simpl.
  - symmetry. now apply filter_all.
  - rewrite IH. destruct (p l); simpl.
    + unfold JSSet.delete. rewrite filter_filter. apply filter_ext.
      intros x. now rewrite negb_orb.
    + reflexivity.
Qed.

Lemma delete_all_filter (rs : list Listener) (s : JSSet.t) :
  JSSet.delete_all rs s
  = filter (fun x => negb (existsb (fun l => JSSet.same l x) rs)) s.
Proof.
  unfold JSSet.delete_all. revert s. induction rs as [|l rs IH]; intros s; simpl.
  - symmetry. now apply filter_all.
  - rewrite IH. unfold JSSet.delete. rewrite filter_filter. apply filter_ext.
    intros x. now rewrite negb_orb.
Qed.

Lemma existsb_same (p : Listener -> bool) (s : JSSet.t) (x : Listener) :
  NoDup (map ref s) -> In x s ->
  existsb (fun l => p l && JSSet.same l x) s = p x.
Proof.
  intros Hnd Hx. destruct (p x) eqn:Hp.
  - apply existsb_exists. exists x. now rewrite Hp, same_refl.
  - apply not_true_is_false. intros H. apply existsb_exists in H.
    destruct H as [l [Hl H]]. apply andb_prop in H. destruct H as [Hpl Hs].
    apply Nat.eqb_eq in Hs.
    assert (l = x) by (eapply NoDup_map_eq; eauto). congruence.
Qed.

(** On a set of distinct records the deleting loop is a filter. *)
Lemma delete_where_filter (p : Listener -> bool) (s : JSSet.t) :
  NoDup (map ref s) ->
  JSSet.delete_where p s = filter (fun l => negb (p l)) s.
Proof.
  intros Hnd. unfold JSSet.delete_where. rewrite fold_delete_where.
  apply filter_ext_in. intros x Hx. now rewrite existsb_same.
Qed.

(** Whatever the set, no record that passes the test survives the loop. *)
Lemma delete_where_none_left (p : Listener -> bool) (s : JSSet.t) (x : Listener) :
  In x (JSSet.delete_where p s) -> In x s /\ p x = false.
Proof.
  unfold JSSet.delete_where. rewrite fold_delete_where. intros H.
  apply filter_In in H. destruct H as [Hin H]. split; trivial.
  destruct (p x) eqn:Hp; trivial.
  apply negb_true_iff in H. rewrite <- H. symmetry.
  apply existsb_exists. exists x. now rewrite Hp, same_refl.
Qed.

Lemma delete_where_nothing (p : Listener -> bool) (s : JSSet.t) :
  (forall x, In x s -> p x = false) -> JSSet.delete_where p s = s.
Proof.
  intros H. unfold JSSet.delete_where. rewrite fold_delete_where.
  apply filter_all. intros x Hx. apply negb_true_iff.
  apply not_true_is_false. intros He. apply existsb_exists in He.
  destruct He as [l [Hl He]]. rewrite (H l Hl) in He. discriminate.
Qed.

(** ** Well-formed registries *)

Lemma set_ok_mono (n n' : nat) (s : JSSet.t) :
  n <= n' -> set_ok n s -> set_ok n' s.
Proof.
  intros Hle (Hne & Hnd & Hb). repeat split; trivial.
  eapply Forall_impl; [|exact Hb]. simpl. intros; lia.
Qed.

Lemma set_ok_filter (n : nat) (p : Listener -> bool) (s : JSSet.t) :
  NoDup (map ref s) -> Forall (fun l => ref l < n) s ->
  filter p s <> [] -> set_ok n (filter p s).
Proof.
  intros Hnd Hb Hne. repeat split; trivial.
  - now apply NoDup_map_filter.
  - apply Forall_forall. intros x Hx. apply filter_In in Hx.
    rewrite Forall_forall in Hb. apply Hb, Hx.
Qed.

Lemma delete_absent {V : Type} (k : EventKey) (m : JSMap.t V) :
  JSMap.get k m = None -> JSMap.delete k m = m.
Proof.
  induction m as [|[k' v'] m IH]; simpl; trivial.
  key_cases k k'. intros H. now rewrite IH.
Qed.

Lemma delete_set_absent {V : Type} (k : EventKey) (v : V) (m : JSMap.t V) :
  JSMap.get k m = None -> JSMap.delete k (JSMap.set k v m) = m.
Proof.
  induction m as [|[k' v'] m IH]; simpl.
  - now rewrite EventKey_eqb_refl.
  - key_cases k k'. intros H.
    destruct (EventKey_eqb_spec k k'); [contradiction|].
    simpl. now rewrite IH.
Qed.

(** A new key goes to the end; a key that is there keeps its place. *)
Lemma keys_set {V : Type} (k : EventKey) (v : V) (m : JSMap.t V) :
  JSMap.keys (JSMap.set k v m)
  = if JSMap.has k m then JSMap.keys m else JSMap.keys m ++ [k].
Proof.
  unfold JSMap.has. induction m as [|[k' v'] m IH]; simpl; trivial.
  key_cases k k'. rewrite IH. now destruct (JSMap.get k m).
Qed.

Lemma keys_delete_other {V : Type} (k k' : EventKey) (m : JSMap.t V) :
  k <> k' ->
  (In k' (JSMap.keys (JSMap.delete k m)) <-> In k' (JSMap.keys m)).
Proof.
  intros Hne. rewrite !keys_get. now rewrite get_delete_other.
Qed.

Lemma filter_of_map {A B : Type} (f : A -> B) (p : B -> bool) (xs : list A) :
  filter p (map f xs) = map f (filter (fun x => p (f x)) xs).
Proof.
  induction xs as [|x xs IH]; simpl; trivial.
  destruct (p (f x)); simpl; now rewrite IH.
Qed.

Lemma filter_none {A : Type} (p : A -> bool) (xs : list A) :
  (forall x, In x xs -> p x = false) -> filter p xs = [].
Proof.
  induction xs as [|x xs IH]; simpl; intros H; trivial.
  rewrite (H x) by auto. apply IH. auto.
Qed.




Lemma delete_set_same {V : Type} (k : EventKey) (v : V) (m : JSMap.t V) :
  JSMap.delete k (JSMap.set k v m) = JSMap.delete k m.
Proof.
  induction m as [|[k' v'] m IH]; simpl.
  - now rewrite EventKey_eqb_refl.
  - destruct (EventKey_eqb_spec k k') as [->|Hne]; simpl.
    + now rewrite EventKey_eqb_refl.
    + destruct (EventKey_eqb_spec k k'); [contradiction|]. simpl. now rewrite IH.
Qed.

Lemma get_None_not_In {V : Type} (k : EventKey) (v : V) (m : JSMap.t V) :
  JSMap.get k m = None -> ~ In (k, v) m.
Proof.
  induction m as [|[k' v'] m IH]; simpl; [tauto|].
  key_cases k k'. intros Hget [Heq|Hin]; [congruence|now apply IH].
Qed.

(** ** The heap *)

Lemma length_write (a : nat) (s : JSSet.t) (h : Heap.t) :
  List.length (Heap.write a s h) = List.length h.
Proof.
  revert a. induction h as [|x h IH]; intros [|a]; simpl; trivial.
  now rewrite IH.
Qed.

Lemma read_write_same (a : nat) (s : JSSet.t) (h : Heap.t) :
  a < List.length h -> Heap.read a (Heap.write a s h) = s.
Proof.
  unfold Heap.read. revert a. induction h as [|x h IH]; intros [|a]; simpl;
    try lia; trivial.
  intros Hlt. apply IH. lia.
Qed.

Lemma read_write_other (a b : nat) (s : JSSet.t) (h : Heap.t) :
  a <> b -> Heap.read b (Heap.write a s h) = Heap.read b h.
Proof.
  unfold Heap.read. revert a b.
  induction h as [|x h IH]; intros [|a] [|b]; simpl; trivial; try congruence.
  intros Hne. apply IH. congruence.
Qed.

Lemma read_beyond (a : nat) (h : Heap.t) :
  List.length h <= a -> Heap.read a h = [].
Proof. intros Hle. unfold Heap.read. now apply nth_overflow. Qed.

Lemma write_beyond (a : nat) (s : JSSet.t) (h : Heap.t) :
  List.length h <= a -> Heap.write a s h = h.
Proof.
  revert a. induction h as [|x h IH]; intros [|a]; simpl; trivial; try lia.
  intros Hle. rewrite IH; trivial. lia.
Qed.

(** Writing back what is there changes nothing. *)
Lemma write_read (a : nat) (h : Heap.t) : Heap.write a (Heap.read a h) h = h.
Proof.
  unfold Heap.read. revert a. induction h as [|x h IH]; intros [|a]; simpl; trivial.
  now rewrite IH.
Qed.

Lemma write_write (a : nat) (s s' : JSSet.t) (h : Heap.t) :
  Heap.write a s (Heap.write a s' h) = Heap.write a s h.
Proof.
  revert a. induction h as [|x h IH]; intros [|a]; simpl; trivial.
  now rewrite IH.
Qed.

Lemma read_app_old (a : nat) (h : Heap.t) (s : JSSet.t) :
  a < List.length h -> Heap.read a (h ++ [s]) = Heap.read a h.
Proof. intros Hlt. unfold Heap.read. now apply app_nth1. Qed.

Lemma read_app_new (h : Heap.t) (s : JSSet.t) :
  Heap.read (List.length h) (h ++ [s]) = s.
Proof. unfold Heap.read. rewrite app_nth2 by lia. now rewrite Nat.sub_diag. Qed.

Lemma write_app_new (h : Heap.t) (s s' : JSSet.t) :
  Heap.write (List.length h) s (h ++ [s']) = h ++ [s].
Proof. induction h as [|x h IH]; simpl; trivial. now rewrite IH. Qed.

Lemma write_app_old (a : nat) (h : Heap.t) (s s' : JSSet.t) :
  a < List.length h -> Heap.write a s (h ++ [s']) = Heap.write a s h ++ [s'].
Proof.
  revert a. induction h as [|x h IH]; intros [|a]; simpl; try lia; trivial.
  intros Hlt. rewrite IH; trivial. lia.
Qed.

(** ** The map as a reader sees it *)

Lemma get_listeners (event : EventKey) (bus : EventBus) :
  JSMap.get event (listeners bus)
  = option_map (fun a => Heap.read a (heap bus)) (JSMap.get event (index bus)).
Proof.
  unfold listeners. induction (index bus) as [|[k a] m IH]; simpl; trivial.
  now destruct (EventKey_eqb event k).
Qed.

Lemma keys_listeners (bus : EventBus) :
  JSMap.keys (listeners bus) = JSMap.keys (index bus).
Proof.
  unfold listeners, JSMap.keys. rewrite map_map. reflexivity.
Qed.

Lemma listeners_delete (event : EventKey) (bus : EventBus) :
  listeners (with_index (JSMap.delete event (index bus)) bus)
  = JSMap.delete event (listeners bus).
Proof.
  unfold listeners, JSMap.delete. simpl.
  induction (index bus) as [|[k a] m IH]; simpl; trivial.
  destruct (EventKey_eqb event k); simpl; now rewrite IH.
Qed.

(** A [Set] that is under no key can change without a reader seeing it. *)
Lemma listeners_write_orphan (a : nat) (s : JSSet.t) (bus : EventBus) :
  (forall kv, In kv (index bus) -> snd kv <> a) ->
  listeners (with_set a s bus) = listeners bus.
Proof.
  intros Horphan. unfold listeners. simpl. apply map_ext_in.
  intros [k b] Hin. simpl. rewrite read_write_other; trivial.
  intros ->. now apply (Horphan (k, b)).
Qed.

(** A [Set] that is under a key changes for that key and for no other. *)
Lemma listeners_write_live (event : EventKey) (a : nat) (s : JSSet.t)
    (bus : EventBus) :
  index_ok bus -> JSMap.get event (index bus) = Some a ->
  listeners (with_set a s bus) = JSMap.set event s (listeners bus).
Proof.
  intros [Hnd Hin] Hget. unfold listeners. simpl.
  induction (index bus) as [|[k b] m IH]; simpl in *; [discriminate|].
  inversion Hnd as [|x xs Hnot Hnd']; subst.
  inversion Hin as [|y ys Hb Hin']; subst. simpl in Hb.
  destruct (EventKey_eqb_spec event k) as [->|Hne].
  - injection Hget as ->. rewrite read_write_same by trivial. f_equal.
    apply map_ext_in. intros [k' b'] Hk'. simpl.
    rewrite read_write_other; trivial. intros ->. apply Hnot.
    change b' with (snd (k', b')). now apply in_map.
  - rewrite read_write_other.
    + f_equal. now apply IH.
    + intros ->. apply Hnot. apply get_In in Hget.
      change b with (snd (event, b)). now apply in_map.
Qed.

Lemma index_ok_with_set (a : nat) (s : JSSet.t) (bus : EventBus) :
  index_ok bus -> index_ok (with_set a s bus).
Proof.
  intros [Hnd Hin]. split; simpl; trivial. now rewrite length_write.
Qed.

Lemma index_ok_delete (event : EventKey) (bus : EventBus) :
  index_ok bus -> index_ok (with_index (JSMap.delete event (index bus)) bus).
Proof.
  intros [Hnd Hin]. split; simpl.
  - now apply NoDup_map_filter.
  - now apply Forall_delete.
Qed.

Lemma index_ok_get (event : EventKey) (a : nat) (bus : EventBus) :
  index_ok bus -> JSMap.get event (index bus) = Some a ->
  a < List.length (heap bus).
Proof.
  intros [_ Hin] Hget. apply get_In in Hget. rewrite Forall_forall in Hin.
  apply (Hin _ Hget).
Qed.

Lemma listeners_same_store (bus bus' : EventBus) :
  index bus = index bus' -> heap bus = heap bus' -> listeners bus = listeners bus'.
Proof. unfold listeners. now intros -> ->. Qed.

Lemma set_absent {V : Type} (k : EventKey) (v : V) (m : JSMap.t V) :
  JSMap.get k m = None -> JSMap.set k v m = m ++ [(k, v)].
Proof.
  induction m as [|[k' v'] m IH]; simpl; trivial.
  key_cases k k'. intros H. now rewrite IH.
Qed.

(** ** Well-formed registries *)

Lemma well_formed_new : well_formed new_EventBus.
Proof. repeat split; simpl; constructor. Qed.

Lemma well_formed_get (bus : EventBus) (event : EventKey) (s : JSSet.t) :
  well_formed bus -> JSMap.get event (listeners bus) = Some s ->
  set_ok (next_ref bus) s.
Proof.
  intros (_ & _ & Hall) Hget. apply get_In in Hget.
  rewrite Forall_forall in Hall. apply (Hall _ Hget).
Qed.

Lemma listeners_of_get (bus : EventBus) (event : EventKey) (s : JSSet.t) :
  JSMap.get event (listeners bus) = Some s -> listeners_of event bus = s.
Proof. unfold listeners_of. now intros ->. Qed.

Lemma listeners_of_index (bus : EventBus) (event : EventKey) (a : nat) :
  JSMap.get event (index bus) = Some a ->
  listeners_of event bus = Heap.read a (heap bus).
Proof.
  intros Hget. apply listeners_of_get. now rewrite get_listeners, Hget.
Qed.

Lemma listeners_of_absent (bus : EventBus) (event : EventKey) :
  JSMap.get event (index bus) = None -> listeners_of event bus = [].
Proof.
  intros Hget. unfold listeners_of. now rewrite get_listeners, Hget.
Qed.

Lemma well_formed_listeners_of (bus : EventBus) (event : EventKey) :
  well_formed bus ->
  NoDup (map ref (listeners_of event bus))
  /\ Forall (fun l => ref l < next_ref bus) (listeners_of event bus).
Proof.
  intros Hwf. unfold listeners_of.
  destruct (JSMap.get event (listeners bus)) as [s|] eqn:Hget; simpl.
  - pose proof (well_formed_get _ Hwf Hget) as (_ & Hnd & Hb). now split.
  - split; constructor.
Qed.

Lemma well_formed_delete (bus : EventBus) (event : EventKey) :
  well_formed bus ->
  well_formed (with_index (JSMap.delete event (index bus)) bus).
Proof.
  intros (Hindex & Hkeys & Hall). split; [|split].
  - now apply index_ok_delete.
  - rewrite listeners_delete. now apply NoDup_keys_delete.
  - rewrite listeners_delete. now apply Forall_delete.
Qed.

(** No entry of the map has the address: the [Set] there is under no key. *)
Lemma not_under_event_orphan (event : EventKey) (a : nat) (bus : EventBus) :
  NoDup (JSMap.keys (index bus)) ->
  (forall k, In (k, a) (index bus) -> k = event) ->
  JSMap.get event (index bus) <> Some a ->
  forall kv, In kv (index bus) -> snd kv <> a.
Proof.
  intros Hkeys Howned Hnot [k b] Hin Heq. simpl in Heq. subst b.
  pose proof (Howned k Hin) as ->. apply Hnot. now apply In_get.
Qed.

(** The end of [emit], of a handle and of [off]: the [Set] the method holds
    is written with some of its members filtered out, and the key is
    deleted if that leaves the [Set] empty.  The [Set] is the one under the
    key or one that is under no key any more. *)
Lemma listeners_finish_live (event : EventKey) (a : nat) (s : JSSet.t)
    (bus : EventBus) :
  index_ok bus -> JSMap.get event (index bus) = Some a ->
  listeners (cleanup event a (with_set a s bus))
  = if Nat.eqb (JSSet.size s) 0
    then JSMap.delete event (listeners bus)
    else JSMap.set event s (listeners bus).
Proof.
  intros Hindex Hget. unfold cleanup.
  change (heap (with_set a s bus)) with (Heap.write a s (heap bus)).
  rewrite read_write_same by now apply (index_ok_get _ Hindex Hget).
  destruct (Nat.eqb (JSSet.size s) 0).
  - rewrite (listeners_delete event (with_set a s bus)).
    rewrite (listeners_write_live _ s Hindex Hget). apply delete_set_same.
  - now apply listeners_write_live.
Qed.

Lemma listeners_finish_orphan (event : EventKey) (a : nat) (s : JSSet.t)
    (bus : EventBus) :
  (forall kv, In kv (index bus) -> snd kv <> a) ->
  listeners (cleanup event a (with_set a s bus))
  = if Nat.eqb (JSSet.size (Heap.read a (Heap.write a s (heap bus)))) 0
    then JSMap.delete event (listeners bus)
    else listeners bus.
Proof.
  intros Horphan. unfold cleanup.
  change (heap (with_set a s bus)) with (Heap.write a s (heap bus)).
  destruct (Nat.eqb (JSSet.size (Heap.read a (Heap.write a s (heap bus)))) 0).
  - rewrite (listeners_delete event (with_set a s bus)).
    now rewrite listeners_write_orphan.
  - now apply listeners_write_orphan.
Qed.

Lemma index_ok_finish (event : EventKey) (a : nat) (s : JSSet.t) (bus : EventBus) :
  index_ok bus -> index_ok (cleanup event a (with_set a s bus)).
Proof.
  intros Hindex. unfold cleanup.
  destruct (Nat.eqb _ 0).
  - apply index_ok_delete. now apply index_ok_with_set.
  - now apply index_ok_with_set.
Qed.

Lemma next_ref_finish (event : EventKey) (a : nat) (s : JSSet.t) (bus : EventBus) :
  next_ref (cleanup event a (with_set a s bus)) = next_ref bus.
Proof. unfold cleanup. now destruct (Nat.eqb _ 0). Qed.

Lemma well_formed_finish_live (event : EventKey) (a : nat) (p : Listener -> bool)
    (bus : EventBus) :
  well_formed bus -> JSMap.get event (index bus) = Some a ->
  well_formed
    (cleanup event a (with_set a (filter p (Heap.read a (heap bus))) bus)).
Proof.
  intros Hwf Hget.
  assert (JSMap.get event (listeners bus) = Some (Heap.read a (heap bus))) as Hview
    by now rewrite get_listeners, Hget.
  pose proof (well_formed_get _ Hwf Hview) as (_ & Hnd & Hb).
  destruct Hwf as (Hindex & Hkeys & Hall).
  split; [now apply index_ok_finish|].
  rewrite listeners_finish_live, next_ref_finish by trivial.
  unfold JSSet.size.
  destruct (Nat.eqb_spec (List.length (filter p (Heap.read a (heap bus)))) 0)
    as [He|He]; split.
  - now apply NoDup_keys_delete.
  - now apply Forall_delete.
  - now apply NoDup_keys_set.
  - apply Forall_set; trivial. simpl. apply set_ok_filter; trivial.
    intros Hnil. rewrite Hnil in He. now apply He.
Qed.

Lemma well_formed_finish_orphan (event : EventKey) (a : nat) (s : JSSet.t)
    (bus : EventBus) :
  well_formed bus -> (forall kv, In kv (index bus) -> snd kv <> a) ->
  well_formed (cleanup event a (with_set a s bus)).
Proof.
  intros (Hindex & Hkeys & Hall) Horphan.
  split; [now apply index_ok_finish|].
  rewrite listeners_finish_orphan, next_ref_finish by trivial.
  destruct (Nat.eqb _ 0); split; trivial.
  - now apply NoDup_keys_delete.
  - now apply Forall_delete.
Qed.

Lemma well_formed_thin (p : Listener -> bool) (event : EventKey) (a : nat)
    (bus : EventBus) :
  well_formed bus -> JSMap.get event (index bus) = Some a ->
  well_formed (thin p event a bus).
Proof.
  intros Hwf Hget. unfold thin.
  assert (JSMap.get event (listeners bus) = Some (Heap.read a (heap bus))) as Hview
    by now rewrite get_listeners, Hget.
  pose proof (well_formed_get _ Hwf Hview) as (_ & Hnd & _).
  rewrite delete_where_filter by trivial. now apply well_formed_finish_live.
Qed.

Lemma well_formed_unsubscribe (event : EventKey) (cb : Callback) (ctx : Context)
    (bus : EventBus) :
  well_formed bus -> well_formed (unsubscribe event cb ctx bus).
Proof.
  intros Hwf. unfold unsubscribe.
  destruct (JSMap.get event (index bus)) as [a|] eqn:Hget; trivial.
  now apply well_formed_thin.
Qed.

Lemma well_formed_off (event : EventKey) (cb : option Callback)
    (ctx : option Context) (bus : EventBus) :
  well_formed bus -> well_formed (off event cb ctx bus).
Proof.
  intros Hwf. unfold off.
  destruct (JSMap.get event (index bus)) as [a|] eqn:Hget; trivial.
  destruct cb as [cb|].
  - now apply well_formed_thin.
  - now apply well_formed_delete.
Qed.

Lemma well_formed_clear (event : option EventKey) (bus : EventBus) :
  well_formed bus -> well_formed (clear event bus).
Proof.
  intros Hwf. destruct event as [event|]; simpl.
  - now apply well_formed_delete.
  - destruct Hwf as ((_ & _) & _ & _). repeat split; simpl; constructor.
Qed.

Lemma add_fresh (n : nat) (cb : Callback) (ctx : Context) (o : bool) (s : JSSet.t) :
  Forall (fun l => ref l < n) s ->
  JSSet.add (mkListener n cb ctx o) s = s ++ [mkListener n cb ctx o].
Proof.
  intros Hb. unfold JSSet.add.
  destruct (JSSet.has (mkListener n cb ctx o) s) eqn:Hhas; trivial.
  apply existsb_exists in Hhas. destruct Hhas as [x [Hx Hs]].
  apply Nat.eqb_eq in Hs. simpl in Hs.
  rewrite Forall_forall in Hb. specialize (Hb x Hx). lia.
Qed.

Lemma has_index_listeners (event : EventKey) (bus : EventBus) :
  JSMap.has event (index bus) = JSMap.has event (listeners bus).
Proof.
  unfold JSMap.has. rewrite get_listeners.
  now destruct (JSMap.get event (index bus)).
Qed.

(** [on] and [once] leave the set of the key with one more record at its
    end, whether the key was there or not. *)
Lemma register_listeners (event : EventKey) (cb : Callback) (ctx : Context)
    (o : bool) (bus : EventBus) :
  index_ok bus ->
  listeners (register event cb ctx o bus)
  = JSMap.set event
      (JSSet.add (mkListener (next_ref bus) cb ctx o) (listeners_of event bus))
      (listeners bus).
Proof.
  intros Hindex. unfold register, JSMap.has.
  destruct (JSMap.get event (index bus)) as [a|] eqn:Hget; simpl.
  - rewrite Hget. rewrite (listeners_of_index _ _ Hget).
    erewrite listeners_same_store;
      [apply (listeners_write_live _ _ Hindex Hget)|reflexivity|reflexivity].
  - rewrite get_set_same. rewrite (listeners_of_absent _ _ Hget).
    rewrite read_app_new. unfold listeners. simpl.
    rewrite write_app_new, !set_absent; trivial.
    + rewrite map_app. simpl. rewrite read_app_new. f_equal.
      apply map_ext_in. intros [k b] Hin. simpl. f_equal.
      apply read_app_old. destruct Hindex as [_ Hb].
      rewrite Forall_forall in Hb. apply (Hb _ Hin).
    + fold (listeners bus). now rewrite get_listeners, Hget.
Qed.

Lemma index_ok_register (event : EventKey) (cb : Callback) (ctx : Context)
    (o : bool) (bus : EventBus) :
  index_ok bus -> index_ok (register event cb ctx o bus).
Proof.
  intros Hindex. pose proof Hindex as [Hnd Hb]. unfold register, JSMap.has.
  destruct (JSMap.get event (index bus)) as [a|] eqn:Hget; simpl.
  - rewrite Hget. split; simpl; trivial. now rewrite length_write.
  - rewrite get_set_same. split; simpl.
    + rewrite set_absent by trivial. rewrite map_app. simpl.
      apply NoDup_app; [trivial|repeat constructor; simpl; tauto|].
      intros b Hin [<-|[]]. apply in_map_iff in Hin.
      destruct Hin as [kv [Heq Hin]]. rewrite Forall_forall in Hb.
      specialize (Hb kv Hin). lia.
    + rewrite length_write, length_app. simpl. apply Forall_set; simpl; [lia|].
      eapply Forall_impl; [|exact Hb]. simpl. intros; lia.
Qed.

Lemma next_ref_register (event : EventKey) (cb : Callback) (ctx : Context)
    (o : bool) (bus : EventBus) :
  next_ref (register event cb ctx o bus) = S (next_ref bus).
Proof. reflexivity. Qed.

Lemma register_listeners_of (event : EventKey) (cb : Callback) (ctx : Context)
    (o : bool) (bus : EventBus) :
  well_formed bus ->
  listeners_of event (register event cb ctx o bus)
  = listeners_of event bus ++ [mkListener (next_ref bus) cb ctx o].
Proof.
  intros Hwf. unfold listeners_of at 1.
  rewrite register_listeners by apply Hwf. rewrite get_set_same. simpl.
  apply add_fresh. now apply well_formed_listeners_of.
Qed.

Lemma well_formed_register (event : EventKey) (cb : Callback) (ctx : Context)
    (o : bool) (bus : EventBus) :
  well_formed bus -> well_formed (register event cb ctx o bus).
Proof.
  intros Hwf. pose proof (well_formed_listeners_of event Hwf) as [Hnd Hb].
  destruct Hwf as (Hindex & Hkeys & Hall).
  split; [now apply index_ok_register|].
  rewrite register_listeners, next_ref_register by trivial. split.
  - now apply NoDup_keys_set.
  - apply Forall_set; simpl.
    + rewrite add_fresh by trivial. repeat split.
      * intros H. now apply app_eq_nil in H as [_ H].
      * rewrite map_app. simpl.
        apply NoDup_app; [trivial|repeat constructor; simpl; tauto|].
        intros r Hin [<-|[]]. apply in_map_iff in Hin.
        destruct Hin as [x [Hr Hx]]. rewrite Forall_forall in Hb.
        specialize (Hb x Hx). lia.
      * apply Forall_app. split.
        -- eapply Forall_impl; [|exact Hb]. simpl. intros; lia.
        -- repeat constructor.
    + eapply Forall_impl; [|exact Hall]. intros kv. apply set_ok_mono. lia.
Qed.

(** ** What each method leaves under a key *)

Lemma with_index_id (bus : EventBus) : with_index (index bus) bus = bus.
Proof. now destruct bus. Qed.

Lemma with_set_id (a : nat) (bus : EventBus) :
  with_set a (Heap.read a (heap bus)) bus = bus.
Proof. unfold with_set. rewrite write_read. now destruct bus. Qed.

Lemma listenerCount_length (event : EventKey) (bus : EventBus) :
  listenerCount event bus = List.length (listeners_of event bus).
Proof.
  unfold listenerCount, listeners_of.
  now destruct (JSMap.get event (listeners bus)).
Qed.

(** The other keys, for every method that works under one key. *)
Lemma register_listeners_of_other (event event' : EventKey) (cb : Callback)
    (ctx : Context) (o : bool) (bus : EventBus) :
  well_formed bus -> event <> event' ->
  listeners_of event' (register event cb ctx o bus) = listeners_of event' bus.
Proof.
  intros Hwf Hne. unfold listeners_of at 1.
  rewrite register_listeners by apply Hwf. now rewrite get_set_other.
Qed.

Lemma delete_listeners_of (event : EventKey) (bus : EventBus) :
  listeners_of event (with_index (JSMap.delete event (index bus)) bus) = [].
Proof.
  unfold listeners_of. now rewrite listeners_delete, get_delete_same.
Qed.

Lemma delete_listeners_of_other (event event' : EventKey) (bus : EventBus) :
  event <> event' ->
  listeners_of event' (with_index (JSMap.delete event (index bus)) bus)
  = listeners_of event' bus.
Proof.
  intros Hne. unfold listeners_of. now rewrite listeners_delete, get_delete_other.
Qed.

Lemma finish_listeners_of (event : EventKey) (a : nat) (s : JSSet.t)
    (bus : EventBus) :
  index_ok bus -> JSMap.get event (index bus) = Some a ->
  listeners_of event (cleanup event a (with_set a s bus)) = s.
Proof.
  intros Hindex Hget. unfold listeners_of.
  rewrite listeners_finish_live by trivial. unfold JSSet.size.
  destruct (Nat.eqb_spec (List.length s) 0) as [He|He].
  - rewrite get_delete_same. simpl. destruct s; [reflexivity|discriminate].
  - now rewrite get_set_same.
Qed.

Lemma finish_listeners_of_other (event event' : EventKey) (a : nat)
    (s : JSSet.t) (bus : EventBus) :
  index_ok bus -> JSMap.get event (index bus) = Some a -> event <> event' ->
  listeners_of event' (cleanup event a (with_set a s bus))
  = listeners_of event' bus.
Proof.
  intros Hindex Hget Hne. unfold listeners_of.
  rewrite listeners_finish_live by trivial.
  destruct (Nat.eqb (JSSet.size s) 0).
  - now rewrite get_delete_other.
  - now rewrite get_set_other.
Qed.

(** Writing a set back unchanged changes nothing, as long as it is not
    empty. *)
Lemma finish_same (event : EventKey) (a : nat) (bus : EventBus) :
  Heap.read a (heap bus) <> [] ->
  cleanup event a (with_set a (Heap.read a (heap bus)) bus) = bus.
Proof.
  intros Hne. rewrite with_set_id. unfold cleanup, JSSet.size.
  destruct (Nat.eqb_spec (List.length (Heap.read a (heap bus))) 0) as [He|He];
    trivial.
  destruct (Heap.read a (heap bus)); [congruence|discriminate].
Qed.

Lemma unsubscribe_listeners_of (event : EventKey) (cb : Callback) (ctx : Context)
    (bus : EventBus) :
  well_formed bus ->
  listeners_of event (unsubscribe event cb ctx bus)
  = filter (fun l => negb (matches cb ctx l)) (listeners_of event bus).
Proof.
  intros Hwf. unfold unsubscribe.
  destruct (JSMap.get event (index bus)) as [a|] eqn:Hget.
  - unfold thin. rewrite finish_listeners_of by (trivial; apply Hwf).
    rewrite (listeners_of_index _ _ Hget). apply delete_where_filter.
    rewrite <- (listeners_of_index _ _ Hget).
    now apply well_formed_listeners_of.
  - now rewrite (listeners_of_absent _ _ Hget).
Qed.

Lemma off_listeners_of (event : EventKey) (cb : Callback) (ctx : option Context)
    (bus : EventBus) :
  well_formed bus ->
  listeners_of event (off event (Some cb) ctx bus)
  = filter (fun l => negb (off_matches cb (or_default Null ctx) l))
      (listeners_of event bus).
Proof.
  intros Hwf. unfold off.
  destruct (JSMap.get event (index bus)) as [a|] eqn:Hget.
  - unfold thin. rewrite finish_listeners_of by (trivial; apply Hwf).
    rewrite (listeners_of_index _ _ Hget). apply delete_where_filter.
    rewrite <- (listeners_of_index _ _ Hget).
    now apply well_formed_listeners_of.
  - now rewrite (listeners_of_absent _ _ Hget).
Qed.

Lemma unsubscribe_listeners_of_other (event event' : EventKey) (cb : Callback)
    (ctx : Context) (bus : EventBus) :
  well_formed bus -> event <> event' ->
  listeners_of event' (unsubscribe event cb ctx bus) = listeners_of event' bus.
Proof.
  intros Hwf Hne. unfold unsubscribe.
  destruct (JSMap.get event (index bus)) as [a|] eqn:Hget; trivial.
  unfold thin. now apply finish_listeners_of_other; [apply Hwf| |].
Qed.

Lemma off_listeners_of_other (event event' : EventKey) (cb : option Callback)
    (ctx : option Context) (bus : EventBus) :
  well_formed bus -> event <> event' ->
  listeners_of event' (off event cb ctx bus) = listeners_of event' bus.
Proof.
  intros Hwf Hne. unfold off.
  destruct (JSMap.get event (index bus)) as [a|] eqn:Hget; trivial.
  destruct cb as [cb|].
  - unfold thin. now apply finish_listeners_of_other; [apply Hwf| |].
  - now apply delete_listeners_of_other.
Qed.

Lemma keys_hasListeners (bus : EventBus) (event : EventKey) :
  well_formed bus ->
  (In event (eventNames bus) <-> hasListeners event bus = true).
Proof.
  intros Hwf. unfold eventNames, hasListeners, listenerCount.
  rewrite keys_get. split.
  - intros [s Hget]. rewrite Hget.
    pose proof (well_formed_get _ Hwf Hget) as (Hne & _).
    destruct s; [congruence|reflexivity].
  - destruct (JSMap.get event (listeners bus)) as [s|]; [eauto|discriminate].
Qed.

Lemma no_listeners_unregistered (bus : EventBus) (event : EventKey) :
  well_formed bus -> hasListeners event bus = false ->
  JSMap.get event (listeners bus) = None.
Proof.
  intros Hwf Hno. destruct (JSMap.get event (listeners bus)) as [s|] eqn:Hget; trivial.
  assert (In event (eventNames bus)) as Hin by (apply keys_get; eauto).
  apply keys_hasListeners in Hin; congruence.
Qed.

Lemma no_listeners_no_index (bus : EventBus) (event : EventKey) :
  well_formed bus -> hasListeners event bus = false ->
  JSMap.get event (index bus) = None.
Proof.
  intros Hwf Hno. pose proof (no_listeners_unregistered _ Hwf Hno) as Hget.
  rewrite get_listeners in Hget.
  now destruct (JSMap.get event (index bus)).
Qed.

Lemma has_hasListeners (event : EventKey) (bus : EventBus) :
  well_formed bus ->
  JSMap.has event (listeners bus) = hasListeners event bus.
Proof.
  intros Hwf. unfold JSMap.has, hasListeners, listenerCount.
  destruct (JSMap.get event (listeners bus)) as [s|] eqn:Hget; trivial.
  pose proof (well_formed_get _ Hwf Hget) as (Hne & _).
  destruct s; [congruence|reflexivity].
Qed.

Lemma listeners_of_nonempty_index (event : EventKey) (bus : EventBus) :
  listeners_of event bus <> [] ->
  exists a, JSMap.get event (index bus) = Some a
            /\ Heap.read a (heap bus) = listeners_of event bus.
Proof.
  intros Hne. destruct (JSMap.get event (index bus)) as [a|] eqn:Hget.
  - exists a. split; trivial. now rewrite (listeners_of_index _ _ Hget).
  - now rewrite (listeners_of_absent _ _ Hget) in Hne.
Qed.

(** ** Every method keeps the registry well formed *)

Lemma grows_refl (bus : EventBus) : grows bus bus.
Proof. split; auto. Qed.

Lemma grows_trans (a b c : EventBus) : grows a b -> grows b c -> grows a c.
Proof.
  intros [Hlen1 Hin1] [Hlen2 Hin2]. split; [lia|].
  intros kv Hkv. destruct (Hin2 kv Hkv) as [H|H]; [|right; lia].
  destruct (Hin1 kv H) as [H'|H']; auto.
Qed.

Lemma sound_refl (bus : EventBus) : sound bus bus.
Proof. split; [apply grows_refl|auto]. Qed.

Lemma sound_trans (a b c : EventBus) : sound a b -> sound b c -> sound a c.
Proof.
  intros [Hg1 Hw1] [Hg2 Hw2]. split; [eapply grows_trans; eauto|auto].
Qed.

Lemma grows_delete (event : EventKey) (bus : EventBus) :
  grows bus (with_index (JSMap.delete event (index bus)) bus).
Proof.
  split; simpl; trivial. intros kv Hkv. left.
  unfold JSMap.delete in Hkv. now apply filter_In in Hkv.
Qed.

Lemma grows_with_set (a : nat) (s : JSSet.t) (bus : EventBus) :
  grows bus (with_set a s bus).
Proof. split; simpl; [rewrite length_write|]; auto. Qed.

Lemma grows_finish (event : EventKey) (a : nat) (s : JSSet.t) (bus : EventBus) :
  grows bus (cleanup event a (with_set a s bus)).
Proof.
  unfold cleanup. destruct (Nat.eqb _ 0).
  - eapply grows_trans; [apply grows_with_set|apply grows_delete].
  - apply grows_with_set.
Qed.

Lemma grows_register (event : EventKey) (cb : Callback) (ctx : Context)
    (o : bool) (bus : EventBus) :
  grows bus (register event cb ctx o bus).
Proof.
  unfold register, JSMap.has.
  destruct (JSMap.get event (index bus)) as [a|] eqn:Hget; simpl.
  - rewrite Hget. split; simpl; [rewrite length_write|]; auto.
  - rewrite get_set_same. split; simpl.
    + rewrite length_write, length_app. simpl. lia.
    + intros kv Hkv. apply In_set in Hkv. destruct Hkv as [->|Hkv]; auto.
Qed.

Lemma sound_register (event : EventKey) (cb : Callback) (ctx : Context)
    (o : bool) (bus : EventBus) :
  sound bus (register event cb ctx o bus).
Proof. split; [apply grows_register|apply well_formed_register]. Qed.

Lemma sound_unsubscribe (event : EventKey) (cb : Callback) (ctx : Context)
    (bus : EventBus) :
  sound bus (unsubscribe event cb ctx bus).
Proof.
  split; [|apply well_formed_unsubscribe]. unfold unsubscribe.
  destruct (JSMap.get event (index bus)); [apply grows_finish|apply grows_refl].
Qed.

Lemma sound_off (event : EventKey) (cb : option Callback) (ctx : option Context)
    (bus : EventBus) :
  sound bus (off event cb ctx bus).
Proof.
  split; [|apply well_formed_off]. unfold off.
  destruct (JSMap.get event (index bus)); [|apply grows_refl].
  destruct cb; [apply grows_finish|apply grows_delete].
Qed.

Lemma sound_clear (event : option EventKey) (bus : EventBus) :
  sound bus (clear event bus).
Proof.
  split; [|apply well_formed_clear]. destruct event as [event|]; simpl.
  - apply grows_delete.
  - split; simpl; trivial. intros kv [].
Qed.

(** The [Set] that [emit] found under its key, later: it is still under
    that key or under none. *)
Lemma held_set_later (event : EventKey) (a : nat) (bus bus' : EventBus) :
  well_formed bus -> JSMap.get event (index bus) = Some a ->
  grows bus bus' ->
  forall k, In (k, a) (index bus') -> k = event.
Proof.
  intros (Hindex & Hkeys & _) Hget [_ Hold] k Hin.
  pose proof (index_ok_get _ Hindex Hget) as Hlt.
  destruct (Hold _ Hin) as [Hbefore|Hnew]; [|simpl in Hnew; lia].
  destruct Hindex as [Hnd _]. apply get_In in Hget.
  assert ((k, a) = (event, a)) as Heq; [|congruence].
  eapply (NoDup_map_eq snd); eauto.
Qed.

Lemma well_formed_finish (event : EventKey) (a : nat) (rs : list Listener)
    (bus : EventBus) :
  well_formed bus ->
  (forall k, In (k, a) (index bus) -> k = event) ->
  well_formed
    (cleanup event a
       (with_set a (JSSet.delete_all rs (Heap.read a (heap bus))) bus)).
Proof.
  intros Hwf Hheld. rewrite delete_all_filter.
  destruct (JSMap.get event (index bus)) as [b|] eqn:Hget.
  - destruct (Nat.eq_dec b a) as [->|Hne].
    + now apply well_formed_finish_live.
    + apply well_formed_finish_orphan; trivial.
      apply (@not_under_event_orphan event a bus); trivial; [|congruence].
      destruct Hwf as (_ & Hkeys & _). now rewrite keys_listeners in Hkeys.
  - apply well_formed_finish_orphan; trivial.
    apply (@not_under_event_orphan event a bus); trivial; [|congruence].
    destruct Hwf as (_ & Hkeys & _). now rewrite keys_listeners in Hkeys.
Qed.

Section Soundness.

Variables Payload Error Env : Type.
Variable callback_call : Callback -> Context -> Payload -> Script Payload Error Env.

Local Notation "'World'" := (World Payload Error Env).
Local Notation "'Exec'" := (Exec Payload Error Env).

Lemma sound_exec_bind {A B : Type} (c : Exec A) (k : A -> Exec B) :
  sound_exec c -> (forall a, sound_exec (k a)) -> sound_exec (bind c k).
Proof.
  intros Hc Hk w r w' Hrun. unfold bind in Hrun.
  destruct (c w) as [[[a|e] w1]|] eqn:Hcw; [|injection Hrun as <- <-|discriminate].
  - eapply sound_trans; [eapply Hc; eauto|eapply Hk; eauto].
  - eapply Hc; eauto.
Qed.

Lemma sound_exec_on_bus (f : EventBus -> EventBus) :
  (forall bus, sound bus (f bus)) -> sound_exec (on_bus (Payload:=Payload) (Error:=Error) (Env:=Env) f).
Proof.
  intros Hf w r w' Hrun. unfold on_bus in Hrun. injection Hrun as <- <-.
  apply Hf.
Qed.

Lemma sound_exec_on_host (f : Host Payload Error Env -> Host Payload Error Env) :
  sound_exec (on_host f).
Proof.
  intros w r w' Hrun. unfold on_host in Hrun. injection Hrun as <- <-.
  apply sound_refl.
Qed.

Lemma sound_exec_ret {A : Type} (a : A) :
  sound_exec (ret (Payload:=Payload) (Error:=Error) (Env:=Env) a).
Proof. intros w r w' Hrun. injection Hrun as <- <-. apply sound_refl. Qed.

Lemma sound_exec_try_catch {A : Type} (body : Exec A) (handler : Error -> Exec A) :
  sound_exec body -> (forall e, sound_exec (handler e)) ->
  sound_exec (try_catch body handler).
Proof.
  intros Hb Hh w r w' Hrun. unfold try_catch in Hrun.
  destruct (body w) as [[[a|e] w1]|] eqn:Hbw; [injection Hrun as <- <-| |discriminate].
  - eapply Hb; eauto.
  - eapply sound_trans; [eapply Hb; eauto|eapply Hh; eauto].
Qed.

Lemma sound_exec_script (emit_rec : EventKey -> Payload -> Exec unit) :
  (forall event payload, sound_exec (emit_rec event payload)) ->
  forall s, sound_exec (exec emit_rec s).
Proof.
  intros Hemit. induction s; simpl;
    try (apply sound_exec_bind; [|intros _; trivial]).
  - apply sound_exec_ret.
  - intros w r w' Hrun. injection Hrun as <- <-. apply sound_refl.
  - apply sound_exec_on_bus. intros bus. apply sound_register.
  - apply sound_exec_on_bus. intros bus. apply sound_register.
  - apply sound_exec_on_bus. intros bus. apply sound_unsubscribe.
  - apply sound_exec_on_bus. intros bus. apply sound_off.
  - apply sound_exec_on_bus. intros bus. apply sound_clear.
  - apply Hemit.
  - intros w r w' Hrun. eapply H; eauto.
  - intros w r w' Hrun. eapply H; eauto.
  - intros w r w' Hrun. eapply H; eauto.
  - apply sound_exec_on_host.
  - apply sound_exec_on_host.
Qed.

Lemma sound_exec_call (run : Script Payload Error Env -> Exec unit)
    (l : Listener) (payload : Payload) :
  (forall s, sound_exec (run s)) ->
  sound_exec (call_listener callback_call run l payload).
Proof.
  intros Hrun w r w' Hcall. unfold call_listener in Hcall.
  destruct (run _ w) as [[r1 [bus1 h1]]|] eqn:Hrw; [|discriminate].
  injection Hcall as <- <-. apply (Hrun _ _ _ _ Hrw).
Qed.

Lemma sound_exec_deliver (run : Script Payload Error Env -> Exec unit)
    (event : EventKey) (payload : Payload) (toRemove : list Listener)
    (l : Listener) :
  (forall s, sound_exec (run s)) ->
  sound_exec (deliver_one callback_call run event payload toRemove l).
Proof.
  intros Hrun. unfold deliver_one. apply sound_exec_try_catch.
  - apply sound_exec_bind; [now apply sound_exec_call|].
    intros _. apply sound_exec_ret.
  - intros e. apply sound_exec_bind; [apply sound_exec_on_host|].
    intros _. apply sound_exec_ret.
Qed.

Lemma sound_exec_forEach {S : Type} (fuel a : nat)
    (body : S -> Listener -> Exec S) (seen : list Listener) (acc : S) :
  (forall acc l, sound_exec (body acc l)) ->
  sound_exec (forEach fuel a body seen acc).
Proof.
  intros Hbody. revert seen acc.
  induction fuel as [|fuel IH]; intros seen acc w r w' Hrun; simpl in Hrun;
    destruct (find _ _) as [l|]; try discriminate.
  - injection Hrun as <- <-. apply sound_refl.
  - revert Hrun. apply sound_exec_bind; [apply Hbody|]. intros acc'. apply IH.
  - injection Hrun as <- <-. apply sound_refl.
Qed.

(** [emit] keeps the registry well formed, whatever the callbacks do. *)
Lemma sound_exec_emit (fuel : nat) (event : EventKey) (payload : Payload) :
  sound_exec (emit callback_call fuel event payload).
Proof.
  revert event payload. induction fuel as [|fuel IH];
    intros event payload w r w' Hrun; simpl in Hrun;
    destruct (JSMap.get event (index (fst w))) as [a|] eqn:Hget;
    try discriminate; try (injection Hrun as <- <-; apply sound_refl).
  assert (sound_exec
            (forEach fuel a
               (deliver_one callback_call (exec (emit callback_call fuel))
                  event payload) [] [])) as Hsound.
  { apply sound_exec_forEach. intros acc l. apply sound_exec_deliver.
    apply sound_exec_script. apply IH. }
  unfold bind in Hrun.
  destruct (forEach _ _ _ _ _ w) as [[[toRemove|e] [bus1 h1]]|] eqn:Hloop;
    [|injection Hrun as <- <-|discriminate];
    pose proof (Hsound _ _ _ Hloop) as [Hgrows Hwf]; simpl in Hgrows, Hwf.
  - unfold on_bus in Hrun. injection Hrun as <- <-. simpl. split.
    + eapply grows_trans; [exact Hgrows|apply grows_finish].
    + intros Hwf0. apply well_formed_finish; [now apply Hwf|].
      now apply (@held_set_later event a (fst w) bus1 Hwf0 Hget).
  - now split.
Qed.

Theorem reachable_well_formed (bus : EventBus) :
  reachable callback_call bus -> well_formed bus.
Proof.
  induction 1; simpl.
  - apply well_formed_new.
  - now apply well_formed_register.
  - now apply well_formed_register.
  - now apply well_formed_unsubscribe.
  - now apply well_formed_unsubscribe.
  - now apply well_formed_off.
  - now apply well_formed_clear.
  - now apply (sound_exec_emit _ _ _ _ H0).
Qed.

End Soundness.

(** ** A delivery pass over passive callbacks *)

Lemma find_none {A : Type} (p : A -> bool) (xs : list A) :
  (forall x, In x xs -> p x = false) -> find p xs = None.
Proof.
  induction xs as [|x xs IH]; simpl; intros H; trivial.
  rewrite (H x) by auto. apply IH. auto.
Qed.

Lemma find_after {A : Type} (p : A -> bool) (pre rest : list A) (x : A) :
  (forall y, In y pre -> p y = false) -> p x = true ->
  find p (pre ++ x :: rest) = Some x.
Proof.
  induction pre as [|y pre IH]; simpl; intros Hpre Hx.
  - now rewrite Hx.
  - rewrite (Hpre y) by auto. apply IH; auto.
Qed.

Section PassiveFacts.

Variables Payload Error Env : Type.
Variable callback_call : Callback -> Context -> Payload -> Script Payload Error Env.

Local Notation "'Exec'" := (Exec Payload Error Env).
Local Notation "'Host'" := (Host Payload Error Env).
Local Notation "'no_emit'" := (@no_emit Payload Error Env).

(** A passive body comes back, leaves the dispatcher as it was, does the
    same whatever [emit] would do, adds to the console at most, and leaves
    the record of the calls alone. *)
Lemma exec_passive (emit_rec : EventKey -> Payload -> Exec unit)
    (s : Script Payload Error Env) (bus : EventBus) (h : Host) :
  passive s ->
  exists r h',
    exec emit_rec s (bus, h) = Some (r, (bus, h'))
    /\ exec no_emit s (bus, h) = Some (r, (bus, h'))
    /\ calls h' = calls h
    /\ exists out, console h' = console h ++ out.
Proof.
  revert h. induction s; simpl; intros h Hpassive; try contradiction.
  - exists (Normal tt), h. repeat split. exists []. now rewrite app_nil_r.
  - exists (Throw e), h. repeat split. exists []. now rewrite app_nil_r.
  - apply H, Hpassive.
  - apply H, Hpassive.
  - apply H, Hpassive.
  - unfold bind, on_host. simpl.
    destruct (IHs {| env := e; console := console h; calls := calls h |} Hpassive)
      as (r & h' & He & Hn & Hcalls & out & Hout).
    exists r, h'. repeat split; trivial. now exists out.
  - unfold bind, console_error, on_host. simpl.
    destruct (IHs {| env := env h; console := console h ++ [(event, error)];
                     calls := calls h |} Hpassive)
      as (r & h' & He & Hn & Hcalls & out & Hout).
    exists r, h'. repeat split; trivial.
    exists ((event, error) :: out). simpl in Hout.
    now rewrite Hout, <- app_assoc.
Qed.

Lemma exec_passive_mute (s : Script Payload Error Env) (bus : EventBus) (h : Host)
    (r : Completion Error unit) (bus' : EventBus) (h' : Host) :
  passive s -> mute s ->
  exec no_emit s (bus, h) = Some (r, (bus', h')) -> console h' = console h.
Proof.
  revert h. induction s; simpl; intros h Hpassive Hmute Hrun; try contradiction.
  - now injection Hrun as _ _ <-.
  - now injection Hrun as _ _ <-.
  - eapply H; eauto.
  - eapply H; eauto.
  - eapply H; eauto.
  - unfold bind, on_host in Hrun. simpl in Hrun.
    now apply (IHs _ Hpassive Hmute Hrun).
Qed.

Lemma answer_passive (emit_rec : EventKey -> Payload -> Exec unit)
    (bus : EventBus) (l : Listener) (payload : Payload) (h : Host) :
  passive (callback_call (callback l) (context l) payload) ->
  exec emit_rec (callback_call (callback l) (context l) payload) (bus, h)
  = Some (fst (answer callback_call bus l payload h),
          (bus, snd (answer callback_call bus l payload h)))
  /\ calls (snd (answer callback_call bus l payload h)) = calls h
  /\ exists out,
       console (snd (answer callback_call bus l payload h)) = console h ++ out.
Proof.
  intros Hpassive. unfold answer.
  destruct (exec_passive emit_rec _ bus h Hpassive)
    as (r & h' & He & Hn & Hcalls & Hout).
  rewrite He, Hn. simpl. now repeat split.
Qed.

(** One turn of the loop of [emit] for a passive callback. *)
Lemma deliver_one_passive (emit_rec : EventKey -> Payload -> Exec unit)
    (event : EventKey) (payload : Payload) (toRemove : list Listener)
    (l : Listener) (bus : EventBus) (h : Host) :
  passive (callback_call (callback l) (context l) payload) ->
  let r := fst (answer callback_call bus l payload h) in
  let h1 := snd (answer callback_call bus l payload h) in
  deliver_one callback_call (exec emit_rec) event payload toRemove l (bus, h)
  = Some (Normal
            (toRemove
             ++ consumed [mkCall l (context l) payload r]),
          (bus, after_call event l payload r h1)).
Proof.
  intros Hpassive r h1.
  destruct (answer_passive emit_rec bus l payload h Hpassive) as (Hrun & _ & _).
  unfold deliver_one, try_catch, bind, call_listener. rewrite Hrun.
  fold r h1. unfold consumed, after_call, returned. simpl.
  destruct r as [[]|e]; simpl.
  - rewrite app_nil_r. destruct (once l); simpl; [reflexivity|].
    now rewrite app_nil_r.
  - rewrite andb_false_r. simpl. now rewrite app_nil_r.
Qed.

Lemma consumed_cons (c : Call Payload Error) (cs : list (Call Payload Error)) :
  consumed (c :: cs) = consumed [c] ++ consumed cs.
Proof.
  unfold consumed. simpl. destruct (once (target c) && returned c); reflexivity.
Qed.

(** The loop of [emit] over passive callbacks: it visits what is left of the
    set in order, and neither the set nor the rest of the dispatcher
    changes under it. *)
Lemma forEach_passive (emit_rec : EventKey -> Payload -> Exec unit)
    (event : EventKey) (payload : Payload) (a : nat) (bus : EventBus)
    (rest : list Listener) :
  forall (pre seen acc : list Listener) (h : Host) (fuel : nat),
    Heap.read a (heap bus) = pre ++ rest ->
    NoDup (map ref (pre ++ rest)) ->
    (forall l, In l pre -> JSSet.has l seen = true) ->
    (forall l, In l rest -> JSSet.has l seen = false) ->
    (forall l, In l rest ->
       passive (callback_call (callback l) (context l) payload)) ->
    List.length rest <= fuel ->
    forEach fuel a (deliver_one callback_call (exec emit_rec) event payload)
      seen acc (bus, h)
    = Some (Normal
              (acc ++ consumed (fst (run_calls callback_call event bus rest payload h))),
            (bus, snd (run_calls callback_call event bus rest payload h))).
Proof.
  induction rest as [|l rest IH];
    intros pre seen acc h fuel Hset Hnd Hpre Hrest Hpassive Hfuel.
  - assert (find (fun l => negb (JSSet.has l seen)) (Heap.read a (heap bus)) = None)
      as Hfind.
    { apply find_none. intros x Hx. rewrite Hset, app_nil_r in Hx.
      now rewrite (Hpre x Hx). }
    destruct fuel; simpl; rewrite Hfind; unfold consumed; simpl;
      now rewrite app_nil_r.
  - assert (find (fun l => negb (JSSet.has l seen)) (Heap.read a (heap bus)) = Some l)
      as Hfind.
    { rewrite Hset. apply find_after.
      - intros y Hy. now rewrite (Hpre y Hy).
      - rewrite (Hrest l); simpl; auto. }
    destruct fuel as [|fuel]; [simpl in Hfuel; lia|].
    simpl. rewrite Hfind. unfold bind at 1.
    rewrite deliver_one_passive by (apply Hpassive; simpl; auto).
    destruct (answer callback_call bus l payload h) as [r h1] eqn:Hanswer.
    simpl.
    rewrite (IH (pre ++ [l])).
    + destruct (run_calls callback_call event bus rest payload
                  (after_call event l payload r h1)) as [cs h2].
      simpl. rewrite (consumed_cons _ cs). now rewrite app_assoc.
    + now rewrite <- app_assoc.
    + now rewrite <- app_assoc.
    + intros x Hx. unfold JSSet.has. rewrite existsb_app.
      apply in_app_or in Hx. destruct Hx as [Hx|[<-|[]]].
      * unfold JSSet.has in Hpre. now rewrite (Hpre x Hx).
      * simpl. rewrite same_refl. now rewrite orb_true_r.
    + intros x Hx. unfold JSSet.has. rewrite existsb_app.
      unfold JSSet.has in Hrest. rewrite (Hrest x) by (simpl; auto). simpl.
      rewrite orb_false_r. apply Nat.eqb_neq. intros Heq.
      rewrite map_app in Hnd. apply NoDup_app_remove_l in Hnd. simpl in Hnd.
      inversion Hnd as [|y ys Hnot _]; subst. apply Hnot.
      rewrite <- Heq. now apply in_map.
    + intros x Hx. apply Hpassive. simpl. auto.
    + simpl in Hfuel. lia.
Qed.

End PassiveFacts.

Section PassFacts.

Variables Payload Error Env : Type.
Variable callback_call : Callback -> Context -> Payload -> Script Payload Error Env.

Local Notation "'Host'" := (Host Payload Error Env).
Local Notation "'run'" := (run_calls callback_call).

Lemma run_calls_signature (event : EventKey) (bus : EventBus)
    (ls : list Listener) (payload : Payload) (h : Host) :
  map (fun c => (target c, this_arg c, argument c))
    (fst (run event bus ls payload h))
  = map (fun l => (l, context l, payload)) ls.
Proof.
  revert h. induction ls as [|l ls IH]; intros h; simpl; trivial.
  destruct (answer callback_call bus l payload h) as [r h1].
  specialize (IH (after_call event l payload r h1)).
  destruct (run event bus ls payload _) as [cs h2].
  simpl in *. now rewrite IH.
Qed.

Lemma run_calls_targets (event : EventKey) (bus : EventBus)
    (ls : list Listener) (payload : Payload) (h : Host) :
  map (@target _ _) (fst (run event bus ls payload h)) = ls.
Proof.
  pose proof (f_equal (map (fun x => fst (fst x)))
                (run_calls_signature event bus ls payload h)) as H.
  rewrite !map_map in H. simpl in H. now rewrite map_id in H.
Qed.

Lemma run_calls_In (event : EventKey) (bus : EventBus) (ls : list Listener)
    (payload : Payload) (h : Host) (l : Listener) :
  In l ls ->
  exists o, In (mkCall l (context l) payload o) (fst (run event bus ls payload h)).
Proof.
  revert h. induction ls as [|x ls IH]; intros h; simpl; [tauto|].
  destruct (answer callback_call bus x payload h) as [r h1].
  specialize (IH (after_call event x payload r h1)).
  destruct (run event bus ls payload _) as [cs h2].
  simpl in *. intros [->|Hin].
  - exists r. now left.
  - destruct (IH Hin) as [o Ho]. exists o. now right.
Qed.

(** What a pass leaves in the host: the calls of before and then its own,
    and the console of before and then more, the lines for the calls that
    threw among it. *)
Lemma run_calls_host (event : EventKey) (bus : EventBus) (ls : list Listener)
    (payload : Payload) (h : Host) :
  (forall l, In l ls -> passive (callback_call (callback l) (context l) payload)) ->
  calls (snd (run event bus ls payload h))
  = calls h ++ fst (run event bus ls payload h)
  /\ exists out,
       console (snd (run event bus ls payload h)) = console h ++ out
       /\ forall c err,
            In c (fst (run event bus ls payload h)) ->
            outcome c = Throw err -> In (event, err) out.
Proof.
  revert h. induction ls as [|l ls IH]; intros h Hpassive; simpl.
  - split; [now rewrite app_nil_r|]. exists []. split; [now rewrite app_nil_r|].
    intros c err [].
  - destruct (answer_passive callback_call (@no_emit _ _ _) bus l payload h)
      as (_ & Hcalls & out1 & Hout1); [apply Hpassive; simpl; auto|].
    destruct (answer callback_call bus l payload h) as [r h1].
    simpl in Hcalls, Hout1.
    destruct (IH (after_call event l payload r h1)) as (Hc & out2 & Hout2 & Hlines);
      [intros x Hx; apply Hpassive; simpl; auto|].
    destruct (run event bus ls payload _) as [cs h2]. simpl in *.
    split.
    + now rewrite Hc, Hcalls, <- app_assoc.
    + exists (out1
              ++ match r with Normal _ => [] | Throw e => [(event, e)] end
              ++ out2).
      split; [now rewrite Hout2, Hout1, <- !app_assoc|].
      intros c err [<-|Hin] Hthrow.
      * simpl in Hthrow. subst r. apply in_or_app. right.
        apply in_or_app. left. now left.
      * apply in_or_app. right. apply in_or_app. right. eauto.
Qed.

(** When the bodies do not print either, the console gets the lines of
    [emit] and nothing else. *)
Lemma run_calls_mute (event : EventKey) (bus : EventBus) (ls : list Listener)
    (payload : Payload) (h : Host) :
  (forall l, In l ls -> passive (callback_call (callback l) (context l) payload)) ->
  (forall l, In l ls -> mute (callback_call (callback l) (context l) payload)) ->
  console (snd (run event bus ls payload h))
  = console h ++ reported event (fst (run event bus ls payload h)).
Proof.
  revert h. induction ls as [|l ls IH]; intros h Hpassive Hmute; simpl.
  - now rewrite app_nil_r.
  - assert (console (snd (answer callback_call bus l payload h)) = console h)
      as Hquiet.
    { unfold answer.
      destruct (exec_passive (@no_emit _ _ _) _ bus h (Hpassive l (or_introl eq_refl)))
        as (r & h' & _ & Hn & _). rewrite Hn. simpl.
      apply (exec_passive_mute _ bus h (Hpassive l (or_introl eq_refl))
               (Hmute l (or_introl eq_refl)) Hn). }
    destruct (answer callback_call bus l payload h) as [r h1]. simpl in Hquiet.
    specialize (IH (after_call event l payload r h1)).
    destruct (run event bus ls payload _) as [cs h2]. simpl in *.
    rewrite IH;
      [|intros x Hx; apply Hpassive; simpl; auto
       |intros x Hx; apply Hmute; simpl; auto].
    rewrite Hquiet, <- app_assoc. unfold reported. simpl. reflexivity.
Qed.

Lemma skipn_app_all {A : Type} (xs ys : list A) :
  skipn (List.length xs) (xs ++ ys) = ys.
Proof. rewrite skipn_app, skipn_all, Nat.sub_diag. reflexivity. Qed.

Lemma emit_unregistered (fuel : nat) (event : EventKey) (payload : Payload)
    (bus : EventBus) (h : Host) :
  JSMap.get event (index bus) = None ->
  emit callback_call fuel event payload (bus, h) = Some (Normal tt, (bus, h)).
Proof. intros Hget. destruct fuel; simpl; now rewrite Hget. Qed.

(** [emit] over passive callbacks: with fuel for one visit per record it
    comes back, and where it ends is [pass_result]. *)
Lemma emit_passive (fuel : nat) (event : EventKey) (payload : Payload)
    (bus : EventBus) (h : Host) :
  well_formed bus ->
  (forall l, In l (listeners_of event bus) ->
     passive (callback_call (callback l) (context l) payload)) ->
  listenerCount event bus < fuel ->
  emit callback_call fuel event payload (bus, h)
  = Some (Normal tt, pass_result callback_call event payload bus h).
Proof.
  intros Hwf Hpassive Hfuel. unfold pass_result.
  destruct (JSMap.get event (index bus)) as [a|] eqn:Hget.
  - destruct fuel as [|fuel]; [lia|]. simpl. rewrite Hget. unfold bind.
    pose proof (listeners_of_index _ _ Hget) as Hls.
    rewrite (forEach_passive callback_call (emit callback_call fuel)
               event payload a bus (listeners_of event bus) [] [] [] h).
    + simpl. destruct (run event bus (listeners_of event bus) payload h)
        as [cs h']. reflexivity.
    + now rewrite Hls.
    + simpl. now apply well_formed_listeners_of.
    + intros l [].
    + reflexivity.
    + exact Hpassive.
    + rewrite listenerCount_length in Hfuel. lia.
  - rewrite emit_unregistered by trivial.
    rewrite (listeners_of_absent _ _ Hget). reflexivity.
Qed.

(** What [pass_result] is made of. *)
Lemma pass_result_host (event : EventKey) (payload : Payload) (bus : EventBus)
    (h : Host) :
  snd (pass_result callback_call event payload bus h)
  = snd (run event bus (listeners_of event bus) payload h).
Proof.
  unfold pass_result. now destruct (run event bus _ payload h).
Qed.

Lemma pass_result_calls (event : EventKey) (payload : Payload) (bus : EventBus)
    (h : Host) :
  (forall l, In l (listeners_of event bus) ->
     passive (callback_call (callback l) (context l) payload)) ->
  new_calls h (snd (pass_result callback_call event payload bus h))
  = fst (run event bus (listeners_of event bus) payload h).
Proof.
  intros Hpassive. rewrite pass_result_host. unfold new_calls.
  destruct (run_calls_host event bus _ payload h Hpassive) as [-> _].
  apply skipn_app_all.
Qed.

Lemma pass_result_listeners_of (event : EventKey) (payload : Payload)
    (bus : EventBus) (h : Host) :
  well_formed bus ->
  listeners_of event (fst (pass_result callback_call event payload bus h))
  = filter
      (fun l =>
         negb (existsb (fun x => JSSet.same x l)
                 (consumed (fst (run event bus (listeners_of event bus) payload h)))))
      (listeners_of event bus).
Proof.
  intros Hwf. unfold pass_result.
  destruct (run event bus (listeners_of event bus) payload h) as [cs h'] eqn:Hrun.
  simpl. destruct (JSMap.get event (index bus)) as [a|] eqn:Hget.
  - rewrite finish_listeners_of by (trivial; apply Hwf).
    rewrite (listeners_of_index _ _ Hget). apply delete_all_filter.
  - now rewrite (listeners_of_absent _ _ Hget).
Qed.

Lemma pass_result_listeners_of_other (event event' : EventKey)
    (payload : Payload) (bus : EventBus) (h : Host) :
  well_formed bus -> event <> event' ->
  listeners_of event' (fst (pass_result callback_call event payload bus h))
  = listeners_of event' bus.
Proof.
  intros Hwf Hne. unfold pass_result.
  destruct (run event bus (listeners_of event bus) payload h) as [cs h'].
  simpl. destruct (JSMap.get event (index bus)) as [a|] eqn:Hget; trivial.
  now apply finish_listeners_of_other; [apply Hwf| |].
Qed.

Lemma well_formed_pass_result (event : EventKey) (payload : Payload)
    (bus : EventBus) (h : Host) :
  well_formed bus ->
  well_formed (fst (pass_result callback_call event payload bus h)).
Proof.
  intros Hwf. unfold pass_result.
  destruct (run event bus (listeners_of event bus) payload h) as [cs h'].
  simpl. destruct (JSMap.get event (index bus)) as [a|] eqn:Hget; trivial.
  rewrite delete_all_filter. now apply well_formed_finish_live.
Qed.

End PassFacts.

(** ** [emit] never throws *)

Section NeverThrows.

Variables Payload Error Env : Type.
Variable callback_call : Callback -> Context -> Payload -> Script Payload Error Env.

Local Notation "'Exec'" := (Exec Payload Error Env).




End NeverThrows.

(** ** Handles and [off] that find nothing *)

Lemma delete_where_twice (p : Listener -> bool) (s : JSSet.t) :
  JSSet.delete_where p (JSSet.delete_where p s) = JSSet.delete_where p s.
Proof.
  apply delete_where_nothing. intros x Hx.
  now apply delete_where_none_left in Hx.
Qed.

(** Thinning the set of a key twice with the same test is thinning it
    once. *)
Lemma thin_twice (p : Listener -> bool) (event : EventKey) (a : nat)
    (bus : EventBus) :
  JSMap.get event (index bus) = Some a ->
  match JSMap.get event (index (thin p event a bus)) with
  | Some a1 => thin p event a1 (thin p event a bus)
  | None => thin p event a bus
  end = thin p event a bus.
Proof.
  intros Hget. remember (thin p event a bus) as bus1 eqn:Hbus1.
  unfold thin, cleanup in Hbus1.
  change (heap (with_set a (JSSet.delete_where p (Heap.read a (heap bus))) bus))
    with (Heap.write a (JSSet.delete_where p (Heap.read a (heap bus))) (heap bus))
    in Hbus1.
  set (s' := JSSet.delete_where p (Heap.read a (heap bus))) in *.
  destruct (Nat.eqb_spec (JSSet.size (Heap.read a (Heap.write a s' (heap bus)))) 0)
    as [He|He]; subst bus1.
  - simpl. now rewrite get_delete_same.
  - simpl. rewrite Hget.
    assert (a < List.length (heap bus)) as Hlt.
    { destruct (Nat.lt_ge_cases a (List.length (heap bus))) as [|Hge]; trivial.
      exfalso. apply He. rewrite write_beyond, read_beyond; trivial. }
    rewrite read_write_same in He by trivial.
    unfold thin, cleanup. simpl.
    rewrite (@read_write_same a s' (heap bus) Hlt).
    assert (JSSet.delete_where p s' = s') as -> by apply delete_where_twice.
    rewrite write_write, (@read_write_same a s' (heap bus) Hlt).
    destruct (Nat.eqb_spec (JSSet.size s') 0); [contradiction|].
    unfold with_set. simpl. now rewrite write_write.
Qed.

Lemma unsubscribe_twice (event : EventKey) (cb : Callback) (ctx : Context)
    (bus : EventBus) :
  unsubscribe event cb ctx (unsubscribe event cb ctx bus)
  = unsubscribe event cb ctx bus.
Proof.
  remember (unsubscribe event cb ctx bus) as bus1 eqn:Hbus1.
  unfold unsubscribe in Hbus1.
  destruct (JSMap.get event (index bus)) as [a|] eqn:Hget; subst bus1.
  - unfold unsubscribe. now apply thin_twice.
  - unfold unsubscribe. now rewrite Hget.
Qed.

Lemma thin_nothing (p : Listener -> bool) (event : EventKey) (a : nat)
    (bus : EventBus) :
  well_formed bus -> JSMap.get event (index bus) = Some a ->
  (forall l, In l (listeners_of event bus) -> p l = false) ->
  thin p event a bus = bus.
Proof.
  intros Hwf Hget Hnone. unfold thin.
  rewrite (listeners_of_index _ _ Hget) in Hnone.
  rewrite delete_where_nothing by trivial. apply finish_same.
  assert (JSMap.get event (listeners bus) = Some (Heap.read a (heap bus))) as Hview
    by now rewrite get_listeners, Hget.
  now apply (well_formed_get _ Hwf Hview).
Qed.

Lemma unsubscribe_no_match (event : EventKey) (cb : Callback) (ctx : Context)
    (bus : EventBus) :
  well_formed bus ->
  (forall l, In l (listeners_of event bus) -> matches cb ctx l = false) ->
  unsubscribe event cb ctx bus = bus.
Proof.
  intros Hwf Hno. unfold unsubscribe.
  destruct (JSMap.get event (index bus)) as [a|] eqn:Hget; trivial.
  now apply thin_nothing.
Qed.

(** A record carries its own callback and context, unless the context is
    [NaN], which nothing is [===] to. *)
Lemma matches_own (n : nat) (cb : Callback) (ctx : Context) (o : bool) :
  ctx <> NaN -> matches cb ctx (mkListener n cb ctx o) = true.
Proof.
  intros Hctx. unfold matches. simpl.
  now rewrite Nat.eqb_refl, Context_eqb_refl.
Qed.

Lemma matches_NaN (cb : Callback) (l : Listener) : matches cb NaN l = false.
Proof.
  unfold matches. destruct (context l); simpl; apply andb_false_r.
Qed.

Lemma reported_In {Payload Error : Type} (event : EventKey)
    (cs : list (Call Payload Error)) (c : Call Payload Error) (err : Error) :
  In c cs -> outcome c = Throw err -> In (event, err) (reported event cs).
Proof.
  intros Hin Hout. unfold reported. apply in_flat_map.
  exists c. split; trivial. rewrite Hout. now left.
Qed.

(** * The contract of the dispatcher *)

Section Contract.

Variables Payload Error Env : Type.
Variable callback_call : Callback -> Context -> Payload -> Script Payload Error Env.

Local Notation "'run'" := (run_calls callback_call).
Local Notation "'emit_'" := (emit callback_call).
Local Notation "'reachable_'" := (reachable callback_call).
Local Notation "'Host'" := (Host Payload Error Env).

(** The callbacks of the records under a key leave the dispatcher alone
    when they are called with the payload. *)
Local Notation "'passive_under' event payload bus" :=
  (forall l, In l (listeners_of event bus) ->
     passive (callback_call (callback l) (context l) payload))
  (at level 10, event at level 9, payload at level 9, bus at level 9).




(** C6: in every state reachable from [new EventBus()], a key that is in
    the registry has at least one record; so the keys [eventNames] lists
    are exactly those for which [hasListeners] holds, and a key whose
    count is zero is not in the registry. *)
Theorem reachable_registry_has_no_empty_key (bus : EventBus) :
  reachable_ bus ->
  (forall event s, JSMap.get event (listeners bus) = Some s -> s <> [])
  /\ (forall event, In event (eventNames bus) <-> hasListeners event bus = true)
  /\ (forall event, listenerCount event bus = 0 ->
        hasListeners event bus = false
        /\ ~ In event (eventNames bus)
        /\ JSMap.get event (listeners bus) = None).
Proof.
  intros Hreach.
  pose proof (reachable_well_formed Hreach) as Hwf.
  split; [|split].
  - intros event s Hget. now apply (well_formed_get _ Hwf Hget).
  - intros event. now apply keys_hasListeners.
  - intros event Hcount.
    assert (hasListeners event bus = false) as Hno
      by (unfold hasListeners; now rewrite Hcount).
    split; trivial. split.
    + rewrite keys_hasListeners by trivial. congruence.
    + now apply no_listeners_unregistered.
Qed.

(** C7: [off(event)] without a callback leaves no record under the key and
    takes the key out of the registry; [off(event, callback)] with the
    context omitted (or [null]) removes the records under the key whose
    callback is [callback], whatever their context, and keeps the others
    in order. *)
Theorem off_by_key_and_by_callback (event : EventKey) (bus : EventBus) :
  reachable_ bus ->
  (forall ctx,
      listeners_of event (off event None ctx bus) = []
      /\ JSMap.has event (listeners (off event None ctx bus)) = false
      /\ ~ In event (eventNames (off event None ctx bus))
      /\ hasListeners event (off event None ctx bus) = false)
  /\ (forall cb ctx, ctx = None \/ ctx = Some Null ->
        listeners_of event (off event (Some cb) ctx bus)
        = filter (fun l => negb (Nat.eqb (callback l) cb))
            (listeners_of event bus)).
Proof.
  intros Hreach.
  pose proof (reachable_well_formed Hreach) as Hwf.
  split.
  - intros ctx.
    assert (JSMap.get event (listeners (off event None ctx bus)) = None) as Hnone.
    { unfold off.
      destruct (JSMap.get event (index bus)) as [a|] eqn:Hget.
      - rewrite listeners_delete. apply get_delete_same.
      - now rewrite get_listeners, Hget. }
    unfold listeners_of, JSMap.has, eventNames, hasListeners, listenerCount.
    rewrite Hnone. repeat split; trivial.
    rewrite keys_get. intros [s Hs]. congruence.
  - intros cb ctx Hctx. rewrite off_listeners_of by trivial.
    apply filter_ext. intros l. unfold off_matches.
    destruct Hctx as [-> | ->]; simpl; now rewrite andb_true_r.
Qed.


(** C9: for a key without listeners [emit] completes normally, calls
    nothing, prints nothing and leaves the registry and the host as they
    were, with any fuel; [off] on a key that is not registered, or with a
    callback and context no record under the key matches, leaves the
    registry as it was. *)
Theorem emit_and_off_without_match_do_nothing
    (event : EventKey) (bus : EventBus) :
  reachable_ bus ->
  (hasListeners event bus = false ->
     forall fuel payload h,
       emit_ fuel event payload (bus, h) = Some (Normal tt, (bus, h))
       /\ forall r w',
            emit_ fuel event payload (bus, h) = Some (r, w') ->
            new_calls h (snd w') = [] /\ new_console h (snd w') = [])
  /\ (hasListeners event bus = false ->
        forall cb ctx, off event cb ctx bus = bus)
  /\ (forall cb ctx,
        (forall l, In l (listeners_of event bus) ->
           off_matches cb (or_default Null ctx) l = false) ->
        off event (Some cb) ctx bus = bus).
Proof.
  intros Hreach.
  pose proof (reachable_well_formed Hreach) as Hwf.
  split; [|split].
  - intros Hno fuel payload h.
    pose proof (no_listeners_no_index _ Hwf Hno) as Hget.
    pose proof (emit_unregistered callback_call fuel event payload bus h Hget)
      as Hemit.
    split; [exact Hemit|].
    intros r w' Hrun. rewrite Hemit in Hrun. injection Hrun as _ <-. simpl.
    unfold new_calls, new_console. now rewrite !skipn_all.
  - intros Hno cb ctx.
    pose proof (no_listeners_no_index _ Hwf Hno) as Hget.
    unfold off. now rewrite Hget.
  - intros cb ctx Hnone. unfold off.
    destruct (JSMap.get event (index bus)) as [a|] eqn:Hget; trivial.
    now apply thin_nothing.
Qed.


End Contract.

(** ** One-shot listeners *)

Section OneShot.

Variables Payload Error Env : Type.
Variable callback_call : Callback -> Context -> Payload -> Script Payload Error Env.

(** Which records are still under the key after an [emit] over callbacks
    that leave the dispatcher alone: the persistent ones and, of the
    one-shot ones, those whose call threw.  A one-shot record whose call
    returned is gone. *)
Lemma emit_survivors (event : EventKey) (payload : Payload) (bus : EventBus)
    (h : Host Payload Error Env) (fuel : nat) :
  reachable callback_call bus ->
  (forall l, In l (listeners_of event bus) ->
     passive (callback_call (callback l) (context l) payload)) ->
  listenerCount event bus < fuel ->
  exists bus' h',
    emit callback_call fuel event payload (bus, h) = Some (Normal tt, (bus', h'))
    /\ forall l,
         In l (listeners_of event bus')
         <-> In l (listeners_of event bus)
             /\ (once l = false
                 \/ exists err,
                      In (mkCall l (context l) payload (Throw err))
                         (new_calls h h')).
Proof.
  intros Hreach Hpassive Hfuel.
  pose proof (reachable_well_formed Hreach) as Hwf.
  pose proof (well_formed_listeners_of event Hwf) as [Hnd _].
  exists (fst (pass_result callback_call event payload bus h)),
         (snd (pass_result callback_call event payload bus h)).
  split; [rewrite <- surjective_pairing; now apply emit_passive|].
  intros l.
  rewrite pass_result_listeners_of by trivial.
  rewrite pass_result_calls by trivial.
  set (cs := fst (run_calls callback_call event bus (listeners_of event bus)
                    payload h)).
  pose proof (run_calls_targets callback_call event bus (listeners_of event bus)
                payload h) as Htargets.
  fold cs in Htargets.
  assert (forall c, In c cs -> In (target c) (listeners_of event bus))
    as Htarget_in.
  { intros c Hc. rewrite <- Htargets. now apply in_map. }
  assert (NoDup (map (@target _ _) cs)) as Hnd_calls.
  { rewrite Htargets. now apply NoDup_map_inv in Hnd. }
  rewrite filter_In. split.
  - intros [Hin Hkeep]. split; trivial.
    destruct (once l) eqn:Honce; [right|now left].
    destruct (run_calls_In callback_call event bus _ payload h _ Hin) as [o Ho].
    fold cs in Ho. destruct o as [[]|err]; [|eauto].
    exfalso. apply negb_true_iff in Hkeep.
    apply not_true_iff_false in Hkeep. apply Hkeep.
    apply existsb_exists. exists l. split; [|apply same_refl].
    unfold consumed. apply in_map_iff.
    exists (mkCall l (context l) payload (Normal tt)). split; trivial.
    apply filter_In. split; trivial. simpl. now rewrite Honce.
  - intros [Hin Hwhy]. split; trivial.
    apply negb_true_iff. apply not_true_iff_false. intros Hex.
    apply existsb_exists in Hex. destruct Hex as [x [Hx Hsame]].
    unfold consumed in Hx. apply in_map_iff in Hx.
    destruct Hx as [c [<- Hc]]. apply filter_In in Hc.
    destruct Hc as [Hc Hflags]. apply andb_prop in Hflags.
    destruct Hflags as [Honce Hret]. apply Nat.eqb_eq in Hsame.
    assert (target c = l) as Htc
      by (eapply NoDup_map_eq; [exact Hnd|auto|trivial|trivial]).
    subst l. destruct Hwhy as [Hnot|[err Herr]]; [congruence|].
    assert (mkCall (target c) (context (target c)) payload (Throw err) = c)
      as Hsamecall
      by (eapply NoDup_map_eq; [exact Hnd_calls|trivial|trivial|reflexivity]).
    rewrite <- Hsamecall in Hret. discriminate.
Qed.

End OneShot.

(** C1: a one-shot listener whose callback throws is not removed.  On a new
    bus, [once("test", f)] with a throwing [f], then [emit("test", "first")],
    calls [f], prints the error, and leaves the record under the key:
    [hasListeners("test")] still holds. *)
Theorem throwing_once_listener_stays_registered :
  let bus := snd (subscribeOnce test_key 0 None new_EventBus) in
  let w := sample_emit test_key "first" (bus, sample_host) in
  map (fun c => (target c, outcome c)) (calls (snd w))
  = [(mkListener 0 0 Null true, Throw "first"%string)]
  /\ console (snd w) = [(test_key, "first"%string)]
  /\ listeners_of test_key (fst w) = [mkListener 0 0 Null true]
  /\ hasListeners test_key (fst w) = true.
Proof. repeat split. Qed.

(** C4: with the same throwing one-shot listener, [emit("test", "first")]
    followed by [emit("test", "second")] calls the callback twice, the
    second time with ["second"]. *)
Theorem throwing_once_listener_called_by_every_emit :
  let bus := snd (subscribeOnce test_key 0 None new_EventBus) in
  let w :=
    sample_emit test_key "second"
      (sample_emit test_key "first" (bus, sample_host)) in
  map (fun c => (callback (target c), argument c)) (calls (snd w))
  = [(0, "first"%string); (0, "second"%string)].
Proof. reflexivity. Qed.

(** C5: the handle does not remove "the specific listener" and its second
    call is not always without effect.  Subscribe, call the handle,
    subscribe the same callback again, call the first handle a second time:
    the second call removes the new subscription, which it was not returned
    for. *)
Theorem unsubscribe_handle_second_call_has_effect :
  let handle := fst (on test_key 1 None new_EventBus) in
  let bus1 := snd (on test_key 1 None new_EventBus) in
  let bus2 := handle bus1 in
  let bus3 := snd (on test_key 1 None bus2) in
  listenerCount test_key bus3 = 1
  /\ listenerCount test_key (handle bus3) = 0
  /\ handle bus3 <> bus3.
Proof. repeat split. discriminate. Qed.





(** ** The contract at work on the sample host *)

Lemma sample_call_passive (cb : Callback) (ctx : Context) (payload : string) :
  cb < 10 -> passive (sample_call cb ctx payload).
Proof.
  intros Hlt.
  do 10 (destruct cb as [|cb]; [simpl; intros e; exact I|]). lia.
Qed.

Lemma two_listeners_reachable : reachable sample_call two_listeners.
Proof. unfold two_listeners. do 2 apply reach_on. apply reach_new. Qed.

Lemma two_contexts_reachable : reachable sample_call two_contexts.
Proof. unfold two_contexts. do 2 apply reach_on. apply reach_new. Qed.

Lemma mixed_listeners_reachable : reachable sample_call mixed_listeners.
Proof.
  unfold mixed_listeners.
  repeat first [apply reach_on | apply reach_once | apply reach_new].
Qed.

Lemma two_listeners_passive (payload : string) (l : Listener) :
  In l (listeners_of test_key two_listeners) ->
  passive (sample_call (callback l) (context l) payload).
Proof.
  intros [<-|[<-|[]]]; apply sample_call_passive; simpl; lia.
Qed.



Lemma reachable_registry_has_no_empty_key_witness :
  let bus := off test_key (Some 1) None (off test_key (Some 0) None two_listeners) in
  (forall event s, JSMap.get event (listeners bus) = Some s -> s <> [])
  /\ (forall event, In event (eventNames bus) <-> hasListeners event bus = true)
  /\ (forall event, listenerCount event bus = 0 ->
        hasListeners event bus = false
        /\ ~ In event (eventNames bus)
        /\ JSMap.get event (listeners bus) = None).
Proof.
  apply (@reachable_registry_has_no_empty_key string string nat sample_call).
  do 2 apply reach_off. exact two_listeners_reachable.
Defined.

Lemma off_by_key_and_by_callback_witness :
  (forall ctx,
      listeners_of test_key (off test_key None ctx two_contexts) = []
      /\ JSMap.has test_key (listeners (off test_key None ctx two_contexts)) = false
      /\ ~ In test_key (eventNames (off test_key None ctx two_contexts))
      /\ hasListeners test_key (off test_key None ctx two_contexts) = false)
  /\ (forall cb ctx, ctx = None \/ ctx = Some Null ->
        listeners_of test_key (off test_key (Some cb) ctx two_contexts)
        = filter (fun l => negb (Nat.eqb (callback l) cb))
            (listeners_of test_key two_contexts)).
Proof.
  apply (@off_by_key_and_by_callback string string nat sample_call
           test_key two_contexts).
  exact two_contexts_reachable.
Defined.


Lemma emit_and_off_without_match_do_nothing_witness :
  (forall fuel payload h,
      emit sample_call fuel (KSymbol 7) payload (two_listeners, h)
      = Some (Normal tt, (two_listeners, h))
      /\ forall r w',
           emit sample_call fuel (KSymbol 7) payload (two_listeners, h)
           = Some (r, w') ->
           new_calls h (snd w') = [] /\ new_console h (snd w') = [])
  /\ (forall cb ctx, off (KSymbol 7) cb ctx two_listeners = two_listeners)
  /\ off test_key (Some 5) None two_listeners = two_listeners.
Proof.
  destruct (@emit_and_off_without_match_do_nothing string string nat
              sample_call (KSymbol 7) two_listeners two_listeners_reachable)
    as (Hemit & Hoff & _).
  destruct (@emit_and_off_without_match_do_nothing string string nat
              sample_call test_key two_listeners two_listeners_reachable)
    as (_ & _ & Hnomatch).
  split; [exact (Hemit eq_refl)|]. split; [exact (Hoff eq_refl)|].
  apply Hnomatch. intros l [<-|[<-|[]]]; reflexivity.
Defined.


(** * The rest of the dispatcher *)

(** ** [clear], the other keys, and the order of the keys *)

Section Registry.

Variables Payload Error Env : Type.
Variable callback_call : Callback -> Context -> Payload -> Script Payload Error Env.

Local Notation "'run'" := (run_calls callback_call).
Local Notation "'emit_'" := (emit callback_call).
Local Notation "'reachable_'" := (reachable callback_call).
Local Notation "'Host'" := (Host Payload Error Env).

Local Notation "'passive_under' event payload bus" :=
  (forall l, In l (listeners_of event bus) ->
     passive (callback_call (callback l) (context l) payload))
  (at level 10, event at level 9, payload at level 9, bus at level 9).

Local Notation "'mute_under' event payload bus" :=
  (forall l, In l (listeners_of event bus) ->
     mute (callback_call (callback l) (context l) payload))
  (at level 10, event at level 9, payload at level 9, bus at level 9).

(** [emit] over callbacks that leave the dispatcher alone, with the world
    it ends in taken apart. *)
Lemma emit_pass (event : EventKey) (payload : Payload) (bus : EventBus)
    (h : Host) (fuel : nat) :
  well_formed bus ->
  passive_under event payload bus ->
  listenerCount event bus < fuel ->
  emit_ fuel event payload (bus, h)
  = Some (Normal tt,
          (fst (pass_result callback_call event payload bus h),
           snd (pass_result callback_call event payload bus h))).
Proof.
  intros Hwf Hpassive Hfuel. rewrite <- surjective_pairing.
  now apply emit_passive.
Qed.

(** X1: [clear(event)] does what [off(event)] without a callback does, on
    every bus: the key is gone, its count is zero, and every other key keeps
    its records and its place among the names. *)
Theorem clear_key_is_off_without_callback (event : EventKey) (bus : EventBus) :
  (forall ctx, clear (Some event) bus = off event None ctx bus)
  /\ listenerCount event (clear (Some event) bus) = 0
  /\ ~ In event (eventNames (clear (Some event) bus))
  /\ (forall event', event <> event' ->
        listeners_of event' (clear (Some event) bus) = listeners_of event' bus
        /\ (In event' (eventNames (clear (Some event) bus))
            <-> In event' (eventNames bus))).
Proof.
  split; [|split; [|split]].
  - intros ctx. unfold off. simpl.
    destruct (JSMap.get event (index bus)) as [a|] eqn:Hget; trivial.
    rewrite delete_absent by trivial. apply with_index_id.
  - rewrite listenerCount_length. simpl. now rewrite delete_listeners_of.
  - unfold eventNames. simpl. rewrite listeners_delete, keys_get, get_delete_same.
    intros [s Hs]. discriminate.
  - intros event' Hne. split.
    + simpl. now apply delete_listeners_of_other.
    + unfold eventNames. simpl. rewrite listeners_delete.
      now apply keys_delete_other.
Qed.

(** X2: in a reachable state, what is done under one key leaves the records
    of every other key as they were: subscribing, calling a handle, [off],
    and an [emit] over callbacks that leave the dispatcher alone; and such an
    [emit] only calls records of the key it was given. *)
Theorem other_keys_are_untouched (event event' : EventKey) (bus : EventBus) :
  reachable_ bus ->
  event <> event' ->
  (forall cb ctx,
      listeners_of event' (snd (on event cb ctx bus)) = listeners_of event' bus
      /\ listeners_of event' (snd (subscribeOnce event cb ctx bus))
         = listeners_of event' bus)
  /\ (forall cb ctx bus0,
        listeners_of event' (fst (on event cb ctx bus0) bus)
        = listeners_of event' bus)
  /\ (forall cb ctx,
        listeners_of event' (off event cb ctx bus) = listeners_of event' bus)
  /\ (forall payload h fuel,
        passive_under event payload bus ->
        listenerCount event bus < fuel ->
        exists bus' h',
          emit_ fuel event payload (bus, h) = Some (Normal tt, (bus', h'))
          /\ listeners_of event' bus' = listeners_of event' bus
          /\ forall c, In c (new_calls h h') ->
               In (target c) (listeners_of event bus)).
Proof.
  intros Hreach Hne.
  pose proof (reachable_well_formed Hreach) as Hwf.
  split; [|split; [|split]].
  - intros cb ctx. split; apply register_listeners_of_other; trivial.
  - intros cb ctx bus0. simpl. now apply unsubscribe_listeners_of_other.
  - intros cb ctx. now apply off_listeners_of_other.
  - intros payload h fuel Hpassive Hfuel.
    eexists _, _. split; [now apply emit_pass|]. split.
    + now apply pass_result_listeners_of_other.
    + intros c Hc. rewrite pass_result_calls in Hc by trivial.
      rewrite <- (run_calls_targets callback_call event bus
                    (listeners_of event bus) payload h).
      now apply in_map.
Qed.

(** X3: in a reachable state [on] puts one new persistent record, with the
    given callback and context, after the records the key already has; the
    count of the key rises by one; and the key is appended to [eventNames]
    if it had no listeners and keeps its place otherwise.  The method [once]
    does the same with a one-shot record. *)
Theorem subscribing_appends_one_record
    (event : EventKey) (cb : Callback) (ctx : option Context) (bus : EventBus)
    (one_shot : bool) :
  reachable_ bus ->
  let bus' :=
    snd ((if one_shot then subscribeOnce else on) event cb ctx bus) in
  listeners_of event bus'
  = listeners_of event bus
    ++ [mkListener (next_ref bus) cb (or_default Null ctx) one_shot]
  /\ listenerCount event bus' = S (listenerCount event bus)
  /\ hasListeners event bus' = true
  /\ eventNames bus'
     = (if hasListeners event bus then eventNames bus
        else eventNames bus ++ [event]).
Proof.
  intros Hreach bus'.
  pose proof (reachable_well_formed Hreach) as Hwf.
  assert (bus' = register event cb (or_default Null ctx) one_shot bus) as ->
    by (unfold bus'; now destruct one_shot).
  assert (listeners_of event (register event cb (or_default Null ctx) one_shot bus)
          = listeners_of event bus
            ++ [mkListener (next_ref bus) cb (or_default Null ctx) one_shot])
    as Hls by now apply register_listeners_of.
  assert (listenerCount event (register event cb (or_default Null ctx) one_shot bus)
          = S (listenerCount event bus)) as Hcount.
  { rewrite !listenerCount_length, Hls, length_app. simpl. lia. }
  split; trivial. split; trivial. split.
  - unfold hasListeners. now rewrite Hcount.
  - unfold eventNames. rewrite register_listeners by apply Hwf.
    rewrite keys_set. now rewrite has_hasListeners.
Qed.

(** X4: in a reachable state [eventNames] lists no key twice. *)
Theorem eventNames_lists_each_key_once (bus : EventBus) :
  reachable_ bus -> NoDup (eventNames bus).
Proof.
  intros Hreach. pose proof (reachable_well_formed Hreach) as Hwf.
  unfold eventNames. apply Hwf.
Qed.

(** X5: subscribing and then calling the returned handle gives back the
    registry as it was, keys in the same order, provided the context is not
    [NaN] and no record under the key already carried that callback and
    context. *)
Theorem subscribe_then_unsubscribe_restores_registry
    (event : EventKey) (cb : Callback) (ctx : option Context) (bus : EventBus)
    (one_shot : bool) :
  reachable_ bus ->
  or_default Null ctx <> NaN ->
  (forall l, In l (listeners_of event bus) ->
     matches cb (or_default Null ctx) l = false) ->
  let sub := (if one_shot then subscribeOnce else on) event cb ctx bus in
  listeners (fst sub (snd sub)) = listeners bus.
Proof.
  intros Hreach Hctx Hnone sub.
  pose proof (reachable_well_formed Hreach) as Hwf.
  set (c := or_default Null ctx) in *.
  set (bus1 := register event cb c one_shot bus).
  assert (fst sub (snd sub) = unsubscribe event cb c bus1) as ->
    by (unfold sub; now destruct one_shot).
  assert (well_formed bus1) as Hwf1 by now apply well_formed_register.
  pose proof (register_listeners_of event cb c one_shot Hwf) as Hls.
  fold bus1 in Hls.
  destruct (@listeners_of_nonempty_index event bus1) as (a & Hget1 & Hread1).
  { rewrite Hls. intros H. now apply app_eq_nil in H as [_ H]. }
  unfold unsubscribe, thin. rewrite Hget1, Hread1.
  rewrite listeners_finish_live by (trivial; apply Hwf1).
  rewrite delete_where_filter by now apply well_formed_listeners_of.
  rewrite Hls, filter_app. simpl. rewrite matches_own by trivial. simpl.
  rewrite app_nil_r.
  rewrite filter_all by (intros x Hx; now rewrite (Hnone x Hx)).
  unfold JSSet.size.
  destruct (Nat.eqb_spec (List.length (listeners_of event bus)) 0) as [He|He];
    unfold bus1; rewrite register_listeners by apply Hwf.
  - apply delete_set_absent. apply no_listeners_unregistered; trivial.
    unfold hasListeners. now rewrite listenerCount_length, He.
  - rewrite set_set. apply set_get_id.
    destruct (@listeners_of_nonempty_index event bus) as (a0 & Hget0 & Hread0).
    { intros H. now rewrite H in He. }
    now rewrite get_listeners, Hget0, <- Hread0.
Qed.

(** X6: what was unsubscribed is not called any more.  After
    [off(event)] or [clear(event)], [emit] calls nothing and changes
    nothing, whatever the callbacks are.  After a handle ran, an [emit] over
    callbacks that leave the dispatcher alone calls the records under the
    key that do not carry the handle's callback and context, in their
    order, and no other; after [off(event, callback)], those that do not
    carry the callback. *)
Theorem removed_listeners_are_not_called
    (event : EventKey) (cb : Callback) (bus : EventBus)
    (payload : Payload) (h : Host) (fuel : nat) :
  reachable_ bus ->
  (forall ctx bus0,
      let bus1 := fst (on event cb ctx bus0) bus in
      passive_under event payload bus1 ->
      listenerCount event bus1 < fuel ->
      exists bus' h',
        emit_ fuel event payload (bus1, h) = Some (Normal tt, (bus', h'))
        /\ map (@target _ _) (new_calls h h')
           = filter (fun l => negb (matches cb (or_default Null ctx) l))
               (listeners_of event bus))
  /\ (let bus1 := off event (Some cb) None bus in
      passive_under event payload bus1 ->
      listenerCount event bus1 < fuel ->
      exists bus' h',
        emit_ fuel event payload (bus1, h) = Some (Normal tt, (bus', h'))
        /\ map (@target _ _) (new_calls h h')
           = filter (fun l => negb (Nat.eqb (callback l) cb))
               (listeners_of event bus))
  /\ (forall ctx,
        emit_ fuel event payload (off event None ctx bus, h)
        = Some (Normal tt, (off event None ctx bus, h)))
  /\ emit_ fuel event payload (clear (Some event) bus, h)
     = Some (Normal tt, (clear (Some event) bus, h)).
Proof.
  intros Hreach.
  pose proof (reachable_well_formed Hreach) as Hwf.
  assert (forall bus1,
             well_formed bus1 ->
             passive_under event payload bus1 ->
             listenerCount event bus1 < fuel ->
             exists bus' h',
               emit_ fuel event payload (bus1, h) = Some (Normal tt, (bus', h'))
               /\ map (@target _ _) (new_calls h h') = listeners_of event bus1)
    as Hpass.
  { intros bus1 Hwf1 Hpassive Hfuel.
    eexists _, _. split; [now apply emit_pass|].
    rewrite pass_result_calls by trivial. apply run_calls_targets. }
  split; [|split; [|split]].
  - intros ctx bus0 bus1 Hpassive Hfuel.
    destruct (Hpass bus1) as (bus' & h' & Hemit & Hcalls); trivial.
    { now apply well_formed_unsubscribe. }
    exists bus', h'. split; trivial. rewrite Hcalls.
    unfold bus1. simpl. now apply unsubscribe_listeners_of.
  - intros bus1 Hpassive Hfuel.
    destruct (Hpass bus1) as (bus' & h' & Hemit & Hcalls); trivial.
    { now apply well_formed_off. }
    exists bus', h'. split; trivial. rewrite Hcalls.
    unfold bus1. rewrite off_listeners_of by trivial.
    apply filter_ext. intros l. unfold off_matches. simpl.
    now rewrite andb_true_r.
  - intros ctx. apply emit_unregistered. unfold off.
    destruct (JSMap.get event (index bus)) as [a|] eqn:Hget; trivial.
    simpl. apply get_delete_same.
  - apply emit_unregistered. simpl. apply get_delete_same.
Qed.

(** A call is among those that hand their record over for removal exactly
    when its record is one-shot and it returned. *)
Lemma consumed_same (cs : list (Call Payload Error)) (c : Call Payload Error) :
  NoDup (map ref (map (@target _ _) cs)) -> In c cs ->
  existsb (fun x => JSSet.same x (target c)) (consumed cs)
  = once (target c) && returned c.
Proof.
  intros Hnd Hc. rewrite map_map in Hnd.
  destruct (once (target c) && returned c) eqn:Hflags.
  - apply existsb_exists. exists (target c). split; [|apply same_refl].
    unfold consumed. apply in_map. apply filter_In. now split.
  - apply not_true_is_false. intros Hex. apply existsb_exists in Hex.
    destruct Hex as [x [Hx Hsame]]. unfold consumed in Hx.
    apply in_map_iff in Hx. destruct Hx as [c' [<- Hc']].
    apply filter_In in Hc'. destruct Hc' as [Hc' Hflags'].
    apply Nat.eqb_eq in Hsame.
    assert (c' = c) as -> by (eapply NoDup_map_eq; [exact Hnd| | |]; trivial).
    congruence.
Qed.

(** The records left under the key, read off the calls of the pass. *)
Lemma pass_result_listeners_of_calls (event : EventKey) (payload : Payload)
    (bus : EventBus) (h : Host) :
  well_formed bus ->
  listeners_of event (fst (pass_result callback_call event payload bus h))
  = map (@target _ _)
      (filter (fun c => negb (once (target c) && returned c))
         (fst (run event bus (listeners_of event bus) payload h))).
Proof.
  intros Hwf.
  pose proof (well_formed_listeners_of event Hwf) as [Hnd _].
  pose proof (run_calls_targets callback_call event bus (listeners_of event bus)
                payload h) as Htargets.
  rewrite pass_result_listeners_of by trivial.
  set (cs := fst (run event bus (listeners_of event bus) payload h)) in *.
  rewrite <- Htargets. rewrite filter_of_map. f_equal.
  apply filter_ext_in. intros c Hc. f_equal.
  apply consumed_same; trivial. now rewrite Htargets.
Qed.

(** X7: after an [emit] over callbacks that leave the dispatcher alone, the
    key holds, in their order, the records whose call was not the call of a
    one-shot record that returned; the count drops by the number of one-shot
    records whose call returned. *)
Theorem emit_removes_the_one_shots_that_returned
    (event : EventKey) (payload : Payload) (bus : EventBus) (h : Host)
    (fuel : nat) :
  reachable_ bus ->
  passive_under event payload bus ->
  listenerCount event bus < fuel ->
  exists bus' h',
    emit_ fuel event payload (bus, h) = Some (Normal tt, (bus', h'))
    /\ listeners_of event bus'
       = map (@target _ _)
           (filter (fun c => negb (once (target c) && returned c))
              (new_calls h h'))
    /\ listenerCount event bus'
       + List.length
           (filter (fun c => once (target c) && returned c) (new_calls h h'))
       = listenerCount event bus.
Proof.
  intros Hreach Hpassive Hfuel.
  pose proof (reachable_well_formed Hreach) as Hwf.
  eexists _, _. split; [now apply emit_pass|].
  rewrite pass_result_calls by trivial.
  pose proof (@pass_result_listeners_of_calls event payload bus h Hwf) as Hleft.
  split; trivial.
  rewrite !listenerCount_length, Hleft, length_map.
  pose proof (run_calls_targets callback_call event bus (listeners_of event bus)
                payload h) as Htargets.
  set (cs := fst (run event bus (listeners_of event bus) payload h)) in *.
  rewrite <- Htargets, length_map, Nat.add_comm. apply filter_length.
Qed.

(** X8: an [emit] over callbacks that leave the dispatcher alone, on a key
    whose records are all persistent, leaves the bus as it was: it removes
    nothing, whether the callbacks return or throw. *)
Theorem emit_keeps_a_bus_without_one_shots
    (event : EventKey) (payload : Payload) (bus : EventBus) (h : Host)
    (fuel : nat) :
  reachable_ bus ->
  passive_under event payload bus ->
  listenerCount event bus < fuel ->
  (forall l, In l (listeners_of event bus) -> once l = false) ->
  exists h', emit_ fuel event payload (bus, h) = Some (Normal tt, (bus, h')).
Proof.
  intros Hreach Hpassive Hfuel Hpersistent.
  pose proof (reachable_well_formed Hreach) as Hwf.
  exists (snd (pass_result callback_call event payload bus h)).
  rewrite emit_pass by trivial. do 3 f_equal.
  unfold pass_result.
  destruct (run event bus (listeners_of event bus) payload h) as [cs h'] eqn:Hrun.
  simpl. destruct (JSMap.get event (index bus)) as [a|] eqn:Hget; trivial.
  assert (consumed cs = []) as ->.
  { unfold consumed. rewrite filter_none; trivial.
    intros c Hc. rewrite Hpersistent; trivial.
    rewrite <- (run_calls_targets callback_call event bus
                  (listeners_of event bus) payload h).
    rewrite Hrun. now apply in_map. }
  simpl. apply finish_same.
  assert (JSMap.get event (listeners bus) = Some (Heap.read a (heap bus))) as Hview
    by now rewrite get_listeners, Hget.
  now apply (well_formed_get _ Hwf Hview).
Qed.

Lemma reported_length (event : EventKey) (cs : list (Call Payload Error)) :
  List.length (reported event cs)
  = List.length (filter (fun c => negb (returned c)) cs).
Proof.
  induction cs as [|c cs IH]; simpl; trivial.
  unfold returned at 1. destruct (outcome c); simpl; now rewrite IH.
Qed.

(** X9: an [emit] over callbacks that leave the dispatcher alone and print
    nothing themselves only adds to what the host has seen: the calls and
    the console lines of before are still there.  It prints one line per
    call that threw, in the order of the calls, each under the key of the
    [emit] and with the value thrown; so it prints nothing when every
    callback returns. *)
Theorem emit_prints_one_line_per_throw
    (event : EventKey) (payload : Payload) (bus : EventBus) (h : Host)
    (fuel : nat) :
  reachable_ bus ->
  passive_under event payload bus ->
  mute_under event payload bus ->
  listenerCount event bus < fuel ->
  exists bus' h',
    emit_ fuel event payload (bus, h) = Some (Normal tt, (bus', h'))
    /\ calls h' = calls h ++ new_calls h h'
    /\ console h' = console h ++ new_console h h'
    /\ new_console h h' = reported event (new_calls h h')
    /\ List.length (new_console h h')
       = List.length (filter (fun c => negb (returned c)) (new_calls h h'))
    /\ (forall k err,
          In (k, err) (new_console h h')
          <-> k = event
              /\ exists c, In c (new_calls h h') /\ outcome c = Throw err).
Proof.
  intros Hreach Hpassive Hmute Hfuel.
  pose proof (reachable_well_formed Hreach) as Hwf.
  eexists _, _. split; [now apply emit_pass|].
  rewrite pass_result_calls by trivial.
  rewrite pass_result_host.
  pose proof (run_calls_host callback_call event bus _ payload h Hpassive)
    as [Hcalls _].
  pose proof (run_calls_mute callback_call event bus _ payload h Hpassive Hmute)
    as Hlines.
  set (cs := fst (run event bus (listeners_of event bus) payload h)) in *.
  assert (new_console h (snd (run event bus (listeners_of event bus) payload h))
          = reported event cs) as Hconsole.
  { unfold new_console. rewrite Hlines. apply skipn_app_all. }
  rewrite Hconsole.
  split; [exact Hcalls|]. split; [exact Hlines|]. split; [reflexivity|].
  split; [apply reported_length|].
  intros k err. split.
  - intros Hin. unfold reported in Hin. apply in_flat_map in Hin.
    destruct Hin as [c [Hc Hin]].
    destruct (outcome c) as [u|thrown] eqn:Hout; simpl in Hin; [tauto|].
    destruct Hin as [Hin|[]]. injection Hin as <- <-.
    split; [reflexivity|]. exists c. now split.
  - intros [-> [c [Hc Hout]]]. eapply reported_In; eauto.
Qed.

(** X10: [off] is idempotent on every bus and for every way of calling it:
    a second [off] with the same arguments changes nothing. *)
Theorem off_twice_is_off_once
    (event : EventKey) (cb : option Callback) (ctx : option Context)
    (bus : EventBus) :
  off event cb ctx (off event cb ctx bus) = off event cb ctx bus.
Proof.
  remember (off event cb ctx bus) as bus1 eqn:Hbus1.
  unfold off in Hbus1.
  destruct (JSMap.get event (index bus)) as [a|] eqn:Hget.
  - destruct cb as [cb|]; subst bus1.
    + unfold off at 1. now apply thin_twice.
    + unfold off. simpl. now rewrite get_delete_same.
  - subst bus1. unfold off. now rewrite Hget.
Qed.


(** X12: two [emit]s in a row under one key, over callbacks that leave the
    dispatcher alone: the second calls, in order, exactly the records whose
    call in the first was not the call of a one-shot record that
    returned. *)
Theorem next_emit_calls_what_the_last_one_left
    (event : EventKey) (first second : Payload) (bus : EventBus) (h : Host)
    (fuel : nat) :
  reachable_ bus ->
  passive_under event first bus ->
  passive_under event second bus ->
  listenerCount event bus < fuel ->
  exists bus1 h1 bus2 h2,
    emit_ fuel event first (bus, h) = Some (Normal tt, (bus1, h1))
    /\ emit_ fuel event second (bus1, h1) = Some (Normal tt, (bus2, h2))
    /\ map (fun c => (target c, this_arg c, argument c)) (new_calls h1 h2)
       = map (fun c => (target c, context (target c), second))
           (filter (fun c => negb (once (target c) && returned c))
              (new_calls h h1)).
Proof.
  intros Hreach Hfirst Hsecond Hfuel.
  pose proof (reachable_well_formed Hreach) as Hwf.
  set (w1 := pass_result callback_call event first bus h).
  pose proof (@pass_result_listeners_of_calls event first bus h Hwf) as Hleft.
  fold w1 in Hleft.
  assert (well_formed (fst w1)) as Hwf1 by now apply well_formed_pass_result.
  assert (forall l, In l (listeners_of event (fst w1)) ->
                    In l (listeners_of event bus)) as Hsub.
  { intros l Hl. unfold w1 in Hl.
    rewrite pass_result_listeners_of in Hl by trivial.
    now apply filter_In in Hl. }
  assert (passive_under event second (fst w1)) as Hsecond1 by auto.
  assert (listenerCount event (fst w1) < fuel) as Hfuel1.
  { eapply Nat.le_lt_trans; [|exact Hfuel].
    rewrite !listenerCount_length. unfold w1.
    rewrite pass_result_listeners_of by trivial. apply filter_length_le. }
  exists (fst w1), (snd w1). eexists _, _.
  split; [now apply emit_pass|]. split; [now apply emit_pass|].
  rewrite pass_result_calls by trivial.
  unfold w1 at 4. rewrite pass_result_calls by trivial.
  rewrite run_calls_signature, Hleft. now rewrite map_map.
Qed.

(** X13: the count after a removal.  A handle lowers the count of its key by
    the number of records that carry its callback and context, [off] with a
    callback by the number of records its test accepts, and [off] without a
    callback brings it to zero. *)
Theorem listenerCount_after_removal
    (event : EventKey) (cb : Callback) (bus : EventBus) :
  reachable_ bus ->
  (forall ctx bus0,
      listenerCount event (fst (on event cb ctx bus0) bus)
      + List.length
          (filter (matches cb (or_default Null ctx)) (listeners_of event bus))
      = listenerCount event bus)
  /\ (forall ctx,
        listenerCount event (off event (Some cb) ctx bus)
        + List.length
            (filter (off_matches cb (or_default Null ctx))
               (listeners_of event bus))
        = listenerCount event bus)
  /\ (forall ctx, listenerCount event (off event None ctx bus) = 0).
Proof.
  intros Hreach.
  pose proof (reachable_well_formed Hreach) as Hwf.
  split; [|split].
  - intros ctx bus0. simpl.
    rewrite !listenerCount_length, unsubscribe_listeners_of by trivial.
    rewrite Nat.add_comm. apply filter_length.
  - intros ctx.
    rewrite !listenerCount_length, off_listeners_of by trivial.
    rewrite Nat.add_comm. apply filter_length.
  - intros ctx. rewrite listenerCount_length. unfold off.
    destruct (JSMap.get event (index bus)) as [a|] eqn:Hget.
    + now rewrite delete_listeners_of.
    + now rewrite listeners_of_absent.
Qed.

(** X14: a handle called twice in a row does what it does called once, on
    every bus; and in a reachable state a handle that finds no record with
    its callback and context under its key changes nothing. *)
Theorem unsubscribe_handle_idempotent
    (event : EventKey) (cb : Callback) (ctx : option Context)
    (bus0 bus : EventBus) (handle : UnsubscribeFn) :
  handle = fst (on event cb ctx bus0)
  \/ handle = fst (subscribeOnce event cb ctx bus0) ->
  handle (handle bus) = handle bus
  /\ (reachable_ bus ->
      (forall l, In l (listeners_of event bus) ->
         matches cb (or_default Null ctx) l = false) ->
      handle bus = bus).
Proof.
  intros Hhandle.
  assert (handle = unsubscribe event cb (or_default Null ctx)) as ->
    by (destruct Hhandle as [->| ->]; reflexivity).
  split; [apply unsubscribe_twice|].
  intros Hreach Hnone. apply unsubscribe_no_match; trivial.
  now apply (reachable_well_formed Hreach).
Qed.

(** X15: only [on] and [once] add records.  Whatever key is looked at, the
    records it has after a handle, an [off], a [clear] or an [emit] over
    callbacks that leave the dispatcher alone were already there before. *)
Theorem only_subscribing_adds_records
    (key : EventKey) (l : Listener) (bus : EventBus) :
  reachable_ bus ->
  (forall event cb ctx bus0,
      In l (listeners_of key (fst (on event cb ctx bus0) bus)) ->
      In l (listeners_of key bus))
  /\ (forall event cb ctx,
        In l (listeners_of key (off event cb ctx bus)) ->
        In l (listeners_of key bus))
  /\ (forall event,
        In l (listeners_of key (clear event bus)) -> In l (listeners_of key bus))
  /\ (forall event payload h fuel,
        passive_under event payload bus ->
        listenerCount event bus < fuel ->
        exists bus' h',
          emit_ fuel event payload (bus, h) = Some (Normal tt, (bus', h'))
          /\ (In l (listeners_of key bus') -> In l (listeners_of key bus))).
Proof.
  intros Hreach.
  pose proof (reachable_well_formed Hreach) as Hwf.
  split; [|split; [|split]].
  - intros event cb ctx bus0. simpl.
    destruct (EventKey_eqb_spec event key) as [->|Hne].
    + rewrite unsubscribe_listeners_of by trivial. intros H.
      now apply filter_In in H.
    + now rewrite unsubscribe_listeners_of_other.
  - intros event cb ctx.
    destruct (EventKey_eqb_spec event key) as [->|Hne].
    + destruct cb as [cb|].
      * rewrite off_listeners_of by trivial. intros H.
        now apply filter_In in H.
      * unfold off.
        destruct (JSMap.get key (index bus)) as [a|] eqn:Hget; trivial.
        rewrite delete_listeners_of. simpl. tauto.
    + now rewrite off_listeners_of_other.
  - intros [event|]; simpl.
    + destruct (EventKey_eqb_spec event key) as [->|Hne].
      * rewrite delete_listeners_of. simpl. tauto.
      * now rewrite delete_listeners_of_other.
    + unfold listeners_of, listeners. simpl. tauto.
  - intros event payload h fuel Hpassive Hfuel.
    eexists _, _. split; [now apply emit_pass|].
    destruct (EventKey_eqb_spec event key) as [->|Hne].
    + rewrite pass_result_listeners_of by trivial. intros H.
      now apply filter_In in H.
    + now rewrite pass_result_listeners_of_other.
Qed.

(** X16: when every record under the key is one-shot, an [emit] over
    callbacks that leave the dispatcher alone and all return uses the key
    up: nothing is left under it, it has no listeners and [eventNames] does
    not list it any more. *)
Theorem emit_uses_up_a_key_of_one_shots
    (event : EventKey) (payload : Payload) (bus : EventBus) (h : Host)
    (fuel : nat) :
  reachable_ bus ->
  passive_under event payload bus ->
  listenerCount event bus < fuel ->
  (forall l, In l (listeners_of event bus) -> once l = true) ->
  exists bus' h',
    emit_ fuel event payload (bus, h) = Some (Normal tt, (bus', h'))
    /\ ((forall c, In c (new_calls h h') -> returned c = true) ->
        listeners_of event bus' = []
        /\ hasListeners event bus' = false
        /\ ~ In event (eventNames bus')).
Proof.
  intros Hreach Hpassive Hfuel Hone_shot.
  pose proof (reachable_well_formed Hreach) as Hwf.
  eexists _, _. split; [now apply emit_pass|].
  rewrite pass_result_calls by trivial. intros Hreturned.
  pose proof (@well_formed_pass_result _ _ _ callback_call event payload bus h Hwf)
    as Hwf'.
  set (bus' := fst (pass_result callback_call event payload bus h)) in *.
  assert (listeners_of event bus' = []) as Hgone.
  { unfold bus'. rewrite pass_result_listeners_of_calls by trivial.
    rewrite filter_none; trivial. intros c Hc.
    rewrite Hone_shot
      by (rewrite <- (run_calls_targets callback_call event bus
                        (listeners_of event bus) payload h);
          now apply in_map).
    rewrite Hreturned; trivial. }
  assert (hasListeners event bus' = false) as Hno
    by (unfold hasListeners; now rewrite listenerCount_length, Hgone).
  repeat split; trivial.
  rewrite keys_hasListeners by trivial. congruence.
Qed.

End Registry.

(** ** Fuel *)

Section Fuel.

Variables Payload Error Env : Type.
Variable callback_call : Callback -> Context -> Payload -> Script Payload Error Env.

Local Notation "'Exec'" := (Exec Payload Error Env).

Lemma bind_more {A B : Type} (c c' : Exec A) (k k' : A -> Exec B) w r :
  (forall w r, c w = Some r -> c' w = Some r) ->
  (forall a w r, k a w = Some r -> k' a w = Some r) ->
  bind c k w = Some r -> bind c' k' w = Some r.
Proof.
  intros Hc Hk. unfold bind.
  destruct (c w) as [[[a|e] w1]|] eqn:Hcw; intros H; try discriminate;
    rewrite (Hc _ _ Hcw); auto.
Qed.

Lemma try_catch_more {A : Type} (c c' : Exec A) (k k' : Error -> Exec A) w r :
  (forall w r, c w = Some r -> c' w = Some r) ->
  (forall e w r, k e w = Some r -> k' e w = Some r) ->
  try_catch c k w = Some r -> try_catch c' k' w = Some r.
Proof.
  intros Hc Hk. unfold try_catch.
  destruct (c w) as [[[a|e] w1]|] eqn:Hcw; intros H; try discriminate;
    rewrite (Hc _ _ Hcw); auto.
Qed.

Section Inner.

Variables emit_rec emit_rec' : EventKey -> Payload -> Exec unit.
Hypothesis emit_rec_more :
  forall event payload w r,
    emit_rec event payload w = Some r -> emit_rec' event payload w = Some r.

Lemma exec_more (s : Script Payload Error Env) w r :
  exec emit_rec s w = Some r -> exec emit_rec' s w = Some r.
Proof.
  revert w r.
  induction s as [|e|event cb ctx next IH|event cb ctx next IH
                  |event cb ctx next IH|event cb ctx next IH|event next IH
                  |event payload next IH|event next IH|next IH|next IH
                  |e next IH|event error next IH];
    intros w r; simpl; trivial;
    try (apply bind_more; [solve [trivial]|intros _; apply IH]); try apply IH.
  apply bind_more; [apply emit_rec_more|intros _; apply IH].
Qed.

Lemma deliver_one_more (event : EventKey) (payload : Payload)
    (toRemove : list Listener) (listener : Listener) w r :
  deliver_one callback_call (exec emit_rec) event payload toRemove listener w
  = Some r ->
  deliver_one callback_call (exec emit_rec') event payload toRemove listener w
  = Some r.
Proof.
  unfold deliver_one. apply try_catch_more; trivial.
  intros w1 r1. apply bind_more; trivial.
  intros w2 r2. unfold call_listener.
  destruct (exec emit_rec _ w2) as [[o [bus h]]|] eqn:Hrun; [|discriminate].
  now rewrite (exec_more _ _ Hrun).
Qed.

Lemma forEach_more (event : EventKey) (payload : Payload) (a : nat)
    (fuel fuel' : nat) :
  fuel <= fuel' ->
  forall seen acc w r,
    forEach fuel a (deliver_one callback_call (exec emit_rec) event payload)
      seen acc w = Some r ->
    forEach fuel' a (deliver_one callback_call (exec emit_rec') event payload)
      seen acc w = Some r.
Proof.
  revert fuel'. induction fuel as [|fuel IH]; intros fuel' Hle seen acc w r.
  - destruct fuel'; simpl;
      destruct (find _ (Heap.read a (heap (fst w)))); trivial; discriminate.
  - destruct fuel' as [|fuel']; [lia|]. simpl.
    destruct (find _ (Heap.read a (heap (fst w)))) as [l|]; trivial.
    apply bind_more.
    + intros w1 r1. apply deliver_one_more.
    + intros acc' w1 r1. apply IH. lia.
Qed.

End Inner.

(** With more fuel [emit] gives the result it gave. *)
Lemma emit_more (fuel fuel' : nat) (event : EventKey) (payload : Payload) w r :
  fuel <= fuel' ->
  emit callback_call fuel event payload w = Some r ->
  emit callback_call fuel' event payload w = Some r.
Proof.
  revert fuel' event payload w r.
  induction fuel as [|fuel IH]; intros fuel' event payload w r Hle.
  - destruct fuel'; simpl; destruct (JSMap.get event (index (fst w)));
      trivial; discriminate.
  - destruct fuel' as [|fuel']; [lia|]. simpl.
    destruct (JSMap.get event (index (fst w))) as [a|]; trivial.
    apply bind_more; trivial.
    intros w1 r1. apply forEach_more; [|lia].
    intros e p w2 r2. apply IH. lia.
Qed.

End Fuel.

(** ** What the host has seen *)

Section History.

Variables Payload Error Env : Type.
Variable callback_call : Callback -> Context -> Payload -> Script Payload Error Env.

Local Notation "'Host'" := (Host Payload Error Env).
Local Notation "'Exec'" := (Exec Payload Error Env).














End History.

(** ** The rest of the dispatcher on the sample host *)

Lemma mixed_listeners_passive (payload : string) (l : Listener) :
  In l (listeners_of test_key mixed_listeners) ->
  passive (sample_call (callback l) (context l) payload).
Proof.
  intros [<-|[<-|[<-|[]]]]; apply sample_call_passive; simpl; lia.
Qed.

Lemma mixed_listeners_mute (payload : string) (l : Listener) :
  In l (listeners_of test_key mixed_listeners) ->
  mute (sample_call (callback l) (context l) payload).
Proof.
  intros [<-|[<-|[<-|[]]]]; simpl; intros e; exact I.
Qed.

Lemma other_keys_are_untouched_witness :
  (forall cb ctx bus0,
      listeners_of other_key (fst (on test_key cb ctx bus0) mixed_listeners)
      = listeners_of other_key mixed_listeners)
  /\ (forall cb ctx,
        listeners_of other_key (off test_key cb ctx mixed_listeners)
        = listeners_of other_key mixed_listeners)
  /\ exists bus' h',
       emit sample_call 16 test_key "data"%string (mixed_listeners, sample_host)
       = Some (Normal tt, (bus', h'))
       /\ listeners_of other_key bus' = listeners_of other_key mixed_listeners
       /\ forall c, In c (new_calls sample_host h') ->
            In (target c) (listeners_of test_key mixed_listeners).
Proof.
  assert (test_key <> other_key) as Hne by discriminate.
  destruct (@other_keys_are_untouched string string nat sample_call
              test_key other_key mixed_listeners mixed_listeners_reachable Hne)
    as (_ & Hhandle & Hoff & Hemit).
  split; [exact Hhandle|]. split; [exact Hoff|].
  apply Hemit.
  - apply mixed_listeners_passive.
  - cbv. lia.
Defined.

Lemma subscribing_appends_one_record_witness :
  let bus' := snd (subscribeOnce other_key 5 None mixed_listeners) in
  listeners_of other_key bus'
  = listeners_of other_key mixed_listeners ++ [mkListener 4 5 Null true]
  /\ listenerCount other_key bus' = 2
  /\ hasListeners other_key bus' = true
  /\ eventNames bus' = [test_key; other_key].
Proof.
  apply (@subscribing_appends_one_record string string nat sample_call
           other_key 5 None mixed_listeners true mixed_listeners_reachable).
Defined.

Lemma eventNames_lists_each_key_once_witness :
  NoDup (eventNames mixed_listeners).
Proof.
  apply (@eventNames_lists_each_key_once string string nat sample_call
           mixed_listeners mixed_listeners_reachable).
Defined.

Lemma subscribe_then_unsubscribe_restores_registry_witness :
  let sub := on test_key 7 (Some (Ref 1)) mixed_listeners in
  listeners (fst sub (snd sub)) = listeners mixed_listeners.
Proof.
  apply (@subscribe_then_unsubscribe_restores_registry string string nat
           sample_call test_key 7 (Some (Ref 1)) mixed_listeners false
           mixed_listeners_reachable).
  - discriminate.
  - intros l [<-|[<-|[<-|[]]]]; reflexivity.
Defined.

Lemma removed_listeners_are_not_called_witness :
  (exists bus' h',
      emit sample_call 16 test_key "data"%string
        (off test_key (Some 2) None mixed_listeners, sample_host)
      = Some (Normal tt, (bus', h'))
      /\ map (@target _ _) (new_calls sample_host h')
         = [mkListener 0 1 Null true; mkListener 3 0 Null true])
  /\ emit sample_call 16 test_key "data"%string
       (clear (Some test_key) mixed_listeners, sample_host)
     = Some (Normal tt, (clear (Some test_key) mixed_listeners, sample_host)).
Proof.
  destruct (@removed_listeners_are_not_called string string nat sample_call
              test_key 2 mixed_listeners "data"%string sample_host 16
              mixed_listeners_reachable)
    as (_ & Hoff & _ & Hclear).
  split; [|exact Hclear].
  apply Hoff.
  - intros l [<-|[<-|[]]]; apply sample_call_passive; simpl; lia.
  - cbv. lia.
Defined.

Lemma emit_removes_the_one_shots_that_returned_witness :
  exists bus' h',
    emit sample_call 16 test_key "data"%string (mixed_listeners, sample_host)
    = Some (Normal tt, (bus', h'))
    /\ listeners_of test_key bus'
       = map (@target _ _)
           (filter (fun c => negb (once (target c) && returned c))
              (new_calls sample_host h'))
    /\ listenerCount test_key bus'
       + List.length
           (filter (fun c => once (target c) && returned c)
              (new_calls sample_host h'))
       = listenerCount test_key mixed_listeners.
Proof.
  apply (@emit_removes_the_one_shots_that_returned string string nat sample_call
           test_key "data"%string mixed_listeners sample_host 16
           mixed_listeners_reachable).
  - apply mixed_listeners_passive.
  - cbv. lia.
Defined.

Lemma emit_keeps_a_bus_without_one_shots_witness :
  exists h',
    emit sample_call 16 test_key "data"%string (two_listeners, sample_host)
    = Some (Normal tt, (two_listeners, h')).
Proof.
  apply (@emit_keeps_a_bus_without_one_shots string string nat sample_call
           test_key "data"%string two_listeners sample_host 16
           two_listeners_reachable).
  - apply two_listeners_passive.
  - cbv. lia.
  - intros l [<-|[<-|[]]]; reflexivity.
Defined.

Lemma emit_prints_one_line_per_throw_witness :
  exists bus' h',
    emit sample_call 16 test_key "data"%string (mixed_listeners, sample_host)
    = Some (Normal tt, (bus', h'))
    /\ calls h' = calls sample_host ++ new_calls sample_host h'
    /\ console h' = console sample_host ++ new_console sample_host h'
    /\ new_console sample_host h'
       = reported test_key (new_calls sample_host h')
    /\ List.length (new_console sample_host h')
       = List.length
           (filter (fun c => negb (returned c)) (new_calls sample_host h'))
    /\ (forall k err,
          In (k, err) (new_console sample_host h')
          <-> k = test_key
              /\ exists c,
                   In c (new_calls sample_host h') /\ outcome c = Throw err).
Proof.
  apply (@emit_prints_one_line_per_throw string string nat sample_call
           test_key "data"%string mixed_listeners sample_host 16
           mixed_listeners_reachable).
  - apply mixed_listeners_passive.
  - apply mixed_listeners_mute.
  - cbv. lia.
Defined.


Lemma next_emit_calls_what_the_last_one_left_witness :
  exists bus1 h1 bus2 h2,
    emit sample_call 16 test_key "first"%string (mixed_listeners, sample_host)
    = Some (Normal tt, (bus1, h1))
    /\ emit sample_call 16 test_key "second"%string (bus1, h1)
       = Some (Normal tt, (bus2, h2))
    /\ map (fun c => (target c, this_arg c, argument c)) (new_calls h1 h2)
       = map (fun c => (target c, context (target c), "second"%string))
           (filter (fun c => negb (once (target c) && returned c))
              (new_calls sample_host h1)).
Proof.
  apply (@next_emit_calls_what_the_last_one_left string string nat sample_call
           test_key "first"%string "second"%string mixed_listeners sample_host 16
           mixed_listeners_reachable).
  - apply mixed_listeners_passive.
  - apply mixed_listeners_passive.
  - cbv. lia.
Defined.

Lemma listenerCount_after_removal_witness :
  listenerCount test_key
    (fst (on test_key 1 (Some (Ref 1)) new_EventBus) two_contexts) + 1
  = listenerCount test_key two_contexts
  /\ listenerCount test_key (off test_key (Some 1) None two_contexts) + 2
     = listenerCount test_key two_contexts.
Proof.
  destruct (@listenerCount_after_removal string string nat sample_call
              test_key 1 two_contexts two_contexts_reachable)
    as (Hhandle & Hoff & _).
  split; [exact (Hhandle (Some (Ref 1)) new_EventBus)|exact (Hoff None)].
Defined.

Lemma unsubscribe_handle_idempotent_witness :
  let handle := fst (on test_key 0 None new_EventBus) in
  let bus := handle two_listeners in
  handle (handle bus) = handle bus /\ handle bus = bus.
Proof.
  intros handle bus.
  destruct (@unsubscribe_handle_idempotent string string nat sample_call
              test_key 0 None new_EventBus bus handle (or_introl eq_refl))
    as [Htwice Hnone].
  split; [exact Htwice|]. apply Hnone.
  - apply (reach_handle_on new_EventBus test_key 0 None two_listeners_reachable).
  - intros l [<-|[]]. reflexivity.
Defined.

Lemma only_subscribing_adds_records_witness :
  (In (mkListener 3 0 Null true)
     (listeners_of test_key (off test_key (Some 1) None mixed_listeners)) ->
   In (mkListener 3 0 Null true) (listeners_of test_key mixed_listeners))
  /\ exists bus' h',
       emit sample_call 16 test_key "data"%string (mixed_listeners, sample_host)
       = Some (Normal tt, (bus', h'))
       /\ (In (mkListener 3 0 Null true) (listeners_of test_key bus') ->
           In (mkListener 3 0 Null true) (listeners_of test_key mixed_listeners)).
Proof.
  destruct (@only_subscribing_adds_records string string nat sample_call
              test_key (mkListener 3 0 Null true) mixed_listeners
              mixed_listeners_reachable)
    as (_ & Hoff & _ & Hemit).
  split; [exact (Hoff test_key (Some 1) None)|].
  apply Hemit.
  - apply mixed_listeners_passive.
  - cbv. lia.
Defined.

Lemma emit_uses_up_a_key_of_one_shots_witness :
  let bus :=
    snd (subscribeOnce test_key 2 None
           (snd (subscribeOnce test_key 1 None new_EventBus))) in
  let w := sample_emit test_key "data" (bus, sample_host) in
  listeners_of test_key (fst w) = []
  /\ hasListeners test_key (fst w) = false
  /\ ~ In test_key (eventNames (fst w)).
Proof.
  destruct (@emit_uses_up_a_key_of_one_shots string string nat sample_call
              test_key "data"%string
              (snd (subscribeOnce test_key 2 None
                      (snd (subscribeOnce test_key 1 None new_EventBus))))
              sample_host 16) as (bus' & h' & Hemit & Hgone).
  - apply reach_once, reach_once, reach_new.
  - intros l [<-|[<-|[]]]; apply sample_call_passive; simpl; lia.
  - cbv. lia.
  - intros l [<-|[<-|[]]]; reflexivity.
  - vm_compute in Hemit. injection Hemit as <- <-.
    apply Hgone. intros c [<-|[<-|[]]]; reflexivity.
Defined.

